(** * Put-Call Parity of Vanilla European Options: the pricing functions

    A shallow embedding of the two numerical Python functions of the notebook
    [finance/Put-Call Parity of Vanilla European Options.ipynb],
    [put_option_price] and [put_option_price_div] (numpy / scipy).  The
    notebook's two sympy variants build symbolic expressions on sympy's own
    numbers and are not embedded.

    The arguments are finite Python floats.  A finite float is idealised as
    the real number it stands for: the arithmetic of numpy and scipy is
    followed without rounding, and without the overflow and underflow of
    their results.  What is kept of the floats is what decides whether and
    how a call returns: Python's exceptions ([ZeroDivisionError] at [S / K],
    [OverflowError] at [sigma ** 2]) and the special values that numpy
    returns instead of raising (infinities, nan, the sign of a zero).

    Lemmas [put_option_price_returns] and [put_option_price_div_returns]
    describe this idealised computation on valid inputs.  The theorems about
    the calls themselves are kept to what does not depend on the
    idealisation: equal or negated outcomes of two calls, nan results, the
    absence of an exception, and values at given inputs with a margin far
    above the rounding of doubles.  Statements about [put_value] and
    [put_div_value] concern the real-valued formula that the code
    evaluates. *)

From Stdlib Require Import Reals Lra Lia Bool.
Open Scope R_scope.

(** ** Part I.  The numerical libraries the notebook calls *)

(** *** The error function

    [erf z = 2/sqrt(pi) * integral of exp(-t^2) for t from 0 to z], the
    function behind [scipy.stats.norm.cdf]. *)

Definition gauss (t : R) : R := exp (- (t * t)).

Lemma gauss_continuity : continuity gauss.
Proof. unfold gauss. reg. Qed.

Lemma gauss_integrable (a b : R) : Riemann_integrable gauss a b.
Proof.
  destruct (Rle_dec a b) as [Hab | Hab].
  - apply continuity_implies_RiemannInt; [exact Hab | intros; apply gauss_continuity].
  - apply RiemannInt_P1, continuity_implies_RiemannInt; [lra | intros; apply gauss_continuity].
Qed.

Definition erf_integral (x : R) : R := RiemannInt (gauss_integrable 0 x).

Definition erf (z : R) : R := 2 / sqrt PI * erf_integral z.

(** scipy: [ndtr x], the standard normal cumulative distribution function,
    and [norm.cdf(x, loc, scale) = ndtr((x - loc) / scale)]. *)
Definition ndtr (x : R) : R := (1 + erf (x / sqrt 2)) / 2.

(** *** Floats with their special values *)

Inductive xfloat : Type :=
| XFin (x : R)        (* a finite float; [XFin 0] is +0.0 *)
| XNegZero            (* -0.0 *)
| XInf (neg : bool)   (* +inf ([false]) and -inf ([true]) *)
| XNaN.

(** The real number a finite float stands for. *)
Definition xval (a : xfloat) : option R :=
  match a with
  | XFin x => Some x
  | XNegZero => Some 0
  | XInf _ | XNaN => None
  end.

(** The sign bit. *)
Definition xsign (a : xfloat) : bool :=
  match a with
  | XFin x => if Rlt_dec x 0 then true else false
  | XNegZero => true
  | XInf s => s
  | XNaN => false
  end.

Definition is_zero (a : xfloat) : bool :=
  match a with
  | XFin x => if Req_dec_T x 0 then true else false
  | XNegZero => true
  | XInf _ | XNaN => false
  end.

Definition is_nan (a : xfloat) : bool :=
  match a with XNaN => true | _ => false end.

Definition xzero (neg : bool) : xfloat := if neg then XNegZero else XFin 0.

(** The finite result [x]; [s] is the sign it takes when it is a zero. *)
Definition xfin (s : bool) (x : R) : xfloat :=
  if Req_dec_T x 0 then xzero s else XFin x.

Definition xneg (a : xfloat) : xfloat :=
  match a with
  | XFin x => xfin true (- x)
  | XNegZero => XFin 0
  | XInf s => XInf (negb s)
  | XNaN => XNaN
  end.

Definition xmul (a b : xfloat) : xfloat :=
  match xval a, xval b with
  | Some x, Some y => xfin (xorb (xsign a) (xsign b)) (x * y)
  | _, _ =>
      if is_nan a || is_nan b || is_zero a || is_zero b then XNaN
      else XInf (xorb (xsign a) (xsign b))
  end.

Definition xadd (a b : xfloat) : xfloat :=
  match a, b with
  | XNaN, _ | _, XNaN => XNaN
  | XInf s, XInf t => if eqb s t then XInf s else XNaN
  | XInf s, _ | _, XInf s => XInf s
  | _, _ =>
      match xval a, xval b with
      | Some x, Some y => xfin (xsign a && xsign b) (x + y)
      | _, _ => XNaN
      end
  end.

Definition xsub (a b : xfloat) : xfloat := xadd a (xneg b).

(** Division of numpy floats: a zero divisor gives an infinity or nan (and a
    warning), never an exception. *)
Definition xdiv (a b : xfloat) : xfloat :=
  match a, b with
  | XNaN, _ | _, XNaN => XNaN
  | XInf _, XInf _ => XNaN
  | XInf s, _ => XInf (xorb s (xsign b))
  | _, XInf t => xzero (xorb (xsign a) t)
  | _, _ =>
      match xval a, xval b with
      | Some x, Some y =>
          if is_zero b then (if is_zero a then XNaN else XInf (xorb (xsign a) (xsign b)))
          else xfin (xorb (xsign a) (xsign b)) (x / y)
      | _, _ => XNaN
      end
  end.

Definition np_log (a : xfloat) : xfloat :=
  match a with
  | XFin x => if Rlt_dec 0 x then XFin (ln x)
              else if Req_dec_T x 0 then XInf true else XNaN
  | XNegZero => XInf true
  | XInf false => XInf false
  | XInf true => XNaN
  | XNaN => XNaN
  end.

Definition np_sqrt (a : xfloat) : xfloat :=
  match a with
  | XFin x => if Rle_dec 0 x then XFin (sqrt x) else XNaN
  | XNegZero => XNegZero
  | XInf false => XInf false
  | XInf true => XNaN
  | XNaN => XNaN
  end.

Definition np_exp (a : xfloat) : xfloat :=
  match a with
  | XFin x => XFin (exp x)
  | XNegZero => XFin 1
  | XInf false => XInf false
  | XInf true => XFin 0
  | XNaN => XNaN
  end.

(** [scipy.stats.norm.cdf(x, loc, scale)]; nan when [scale <= 0]. *)
Definition norm_cdf (a : xfloat) (loc scale : R) : xfloat :=
  if Rlt_dec 0 scale then
    match a with
    | XFin x => XFin (ndtr ((x - loc) / scale))
    | XNegZero => XFin (ndtr ((0 - loc) / scale))
    | XInf false => XFin 1
    | XInf true => XFin 0
    | XNaN => XNaN
    end
  else XNaN.

(** *** Exceptions

    [ZeroDivisionError] and [OverflowError] are Python's own; [InvalidInput]
    and [DomainError] are the structured failures the specification names. *)

Inductive exn : Type := ZeroDivisionError | OverflowError | InvalidInput | DomainError.

Inductive result (A : Type) : Type :=
| Ok (a : A)
| Raise (e : exn).
Arguments Ok {A} a.
Arguments Raise {A} e.

Definition bind {A B : Type} (m : result A) (k : A -> result B) : result B :=
  match m with
  | Ok a => k a
  | Raise e => Raise e
  end.

Notation "x <- m ;; k" := (bind m (fun x => k))
  (at level 61, m at next level, right associativity).

(** Division of Python floats: a zero divisor raises. *)
Definition py_div (a b : xfloat) : result xfloat :=
  if is_zero b then Raise ZeroDivisionError else Ok (xdiv a b).

(** The largest finite double, [(2 - 2^-52) * 2^1023]. *)
Definition max_float : R := (2 - / 2 ^ 52) * 2 ^ 1023.

(** [a ** 2] on a Python float: the power raises [OverflowError] when the
    square of a finite float is beyond the largest double. *)
Definition py_sqr (a : xfloat) : result xfloat :=
  match a with
  | XFin x => if Rlt_dec max_float (x * x) then Raise OverflowError else Ok (xmul a a)
  | _ => Ok (xmul a a)
  end.

(** ** Part II.  The notebook's functions *)

(** [put_option_price(S, K, T, r, sigma)], notebook lines 144-159. *)
Definition put_option_price (S K T r sigma : R) : result xfloat :=
  let S := XFin S in                                   (* S = float(S) *)
  let K := XFin K in
  let T := XFin T in
  let r := XFin r in
  let sigma := XFin sigma in
  q1 <- py_div S K ;;
  s1 <- py_sqr sigma ;;
  let d1 := xdiv (xadd (np_log q1) (xmul (xadd r (xmul (XFin 0.5) s1)) T))
                 (xmul sigma (np_sqrt T)) in
  q2 <- py_div S K ;;
  s2 <- py_sqr sigma ;;
  let d2 := xdiv (xadd (np_log q2) (xmul (xsub r (xmul (XFin 0.5) s2)) T))
                 (xmul sigma (np_sqrt T)) in
  let put_price :=
    xsub (xmul (xmul K (np_exp (xmul (xneg r) T))) (norm_cdf (xneg d2) 0.0 1.0))
         (xmul S (norm_cdf (xneg d1) 0.0 1.0)) in
  Ok put_price.

(** [put_option_price_div(S, K, T, r, sigma, q)], notebook lines 247-263. *)
Definition put_option_price_div (S K T r sigma q : R) : result xfloat :=
  let S := XFin S in                                   (* S = float(S) *)
  let K := XFin K in
  let T := XFin T in
  let r := XFin r in
  let sigma := XFin sigma in
  let q := XFin q in
  q1 <- py_div S K ;;
  s1 <- py_sqr sigma ;;
  let d1 := xdiv (xadd (np_log q1) (xmul (xadd r (xmul (XFin 0.5) s1)) T))
                 (xmul sigma (np_sqrt T)) in
  q2 <- py_div S K ;;
  s2 <- py_sqr sigma ;;
  let d2 := xdiv (xadd (np_log q2) (xmul (xsub r (xmul (XFin 0.5) s2)) T))
                 (xmul sigma (np_sqrt T)) in
  let put_price_dividend :=
    xsub (xmul (xmul K (np_exp (xmul (xneg r) T))) (norm_cdf (xneg d2) 0.0 1.0))
         (xmul (xmul S (np_exp (xmul (xneg q) T))) (norm_cdf (xneg d1) 0.0 1.0)) in
  Ok put_price_dividend.

(** A call [returns] the real [v] when it raises nothing and its result is the
    finite float [v]. *)
Definition returns (res : result xfloat) (v : R) : Prop :=
  exists a, res = Ok a /\ xval a = Some v.

(** ** Part III.  The values computed on valid inputs, as real numbers *)

(** The [d1] and [d2] both put functions compute (they do not involve [q]). *)
Definition d1_code (S K T r sigma : R) : R :=
  (ln (S / K) + (r + 0.5 * sigma ^ 2) * T) / (sigma * sqrt T).

Definition d2_code (S K T r sigma : R) : R :=
  (ln (S / K) + (r - 0.5 * sigma ^ 2) * T) / (sigma * sqrt T).

Definition put_value (S K T r sigma : R) : R :=
  K * exp (- r * T) * ndtr (- d2_code S K T r sigma)
  - S * ndtr (- d1_code S K T r sigma).

Definition put_div_value (S K T r sigma q : R) : R :=
  K * exp (- r * T) * ndtr (- d2_code S K T r sigma)
  - S * exp (- q * T) * ndtr (- d1_code S K T r sigma).

(** ** Part IV.  The formulas of the specification *)

(** The specification's [d1] and [d2], with the dividend yield in the drift. *)
Definition d1_spec (S K T r sigma q : R) : R :=
  (ln (S / K) + (r - q + 0.5 * sigma ^ 2) * T) / (sigma * sqrt T).

Definition d2_spec (S K T r sigma q : R) : R :=
  d1_spec S K T r sigma q - sigma * sqrt T.

Definition put_price_spec (S K T r sigma q : R) : R :=
  K * exp (- r * T) * ndtr (- d2_spec S K T r sigma q)
  - S * exp (- q * T) * ndtr (- d1_spec S K T r sigma q).

(** The Black-Scholes call of the notebook's markdown,
    [C = S e^(-qT) N(d1) - K e^(-rT) N(d2)], on the [d1], [d2] of the code. *)
Definition call_value (S K T r sigma q : R) : R :=
  S * exp (- q * T) * ndtr (d1_code S K T r sigma)
  - K * exp (- r * T) * ndtr (d2_code S K T r sigma).

(** ** Part V.  Auxiliary definitions *)

(** The density of the standard normal distribution. *)
Definition norm_pdf (x : R) : R := exp (- (x * x) / 2) / sqrt (2 * PI).

(** Wallis' integrals: [wallis k t] is the integral of [cos ^ k] from 0 to
    [t], given by its reduction formula. *)
Fixpoint wallis (k : nat) (t : R) : R :=
  match k with
  | O => t
  | S k1 =>
      match k1 with
      | O => sin t
      | S j => cos t ^ S j * sin t / INR (S (S j)) + INR (S j) / INR (S (S j)) * wallis j t
      end
  end.

Definition wallis_int (k : nat) : R := wallis k (PI / 2).

(** The times to maturity the limit runs over. *)
Definition positive_time (T : R) : Prop := 0 < T.

(** The inputs the specification wants rejected with [InvalidInput]. *)
Definition invalid_input (S K T sigma : R) : Prop :=
  S <= 0 \/ K <= 0 \/ T < 0 \/ sigma <= 0.

(** The outcome of a call that is none of the specification's structured
    failures. *)
Definition no_structured_failure (res : result xfloat) : Prop :=
  res <> Raise InvalidInput /\ res <> Raise DomainError.

(** The range of the finite doubles, and the smallest positive double. *)
Definition float_range (x : R) : Prop := Rabs x <= max_float.

Definition min_float : R := / 2 ^ 1074.

Definition float_inputs (S K T r sigma q : R) : Prop :=
  float_range S /\ float_range K /\ float_range T /\
  float_range r /\ float_range sigma /\ float_range q.

(** ** Part VI.  Analysis: the error function

    The derivative of [erf_integral], monotone functions from the sign of a
    derivative, and the value of the Gaussian integral (through Wallis'
    integrals of the powers of the cosine). *)

Lemma derivable_pt_lim_local (f g : R -> R) (x l d : R) :
  0 < d -> (forall y, Rabs (y - x) < d -> f y = g y) ->
  derivable_pt_lim g x l -> derivable_pt_lim f x l.
Proof.
  intros Hd Heq Hg eps Heps.
  destruct (Hg eps Heps) as [delta Hdelta].
  assert (Hm : 0 < Rmin delta d) by (apply Rmin_pos; [apply cond_pos | exact Hd]).
  exists (mkposreal _ Hm). intros h Hh Hlt. simpl in Hlt.
  rewrite (Heq (x + h)), (Heq x).
  - apply Hdelta; [exact Hh|]. eapply Rlt_le_trans; [exact Hlt | apply Rmin_l].
  - replace (x - x) with 0 by ring. rewrite Rabs_R0. exact Hd.
  - replace (x + h - x) with h by ring. eapply Rlt_le_trans; [exact Hlt | apply Rmin_r].
Qed.

Lemma erf_integral_derive (x : R) : derivable_pt_lim erf_integral x (gauss x).
Proof.
  set (a := Rmin 0 x - 1). set (b := Rmax 0 x + 1).
  assert (Ha0 : a < 0) by (unfold a; pose proof (Rmin_l 0 x); lra).
  assert (Hax : a < x) by (unfold a; pose proof (Rmin_r 0 x); lra).
  assert (H0b : 0 < b) by (unfold b; pose proof (Rmax_l 0 x); lra).
  assert (Hxb : x < b) by (unfold b; pose proof (Rmax_r 0 x); lra).
  assert (hab : a <= b) by lra.
  assert (C0 : forall y, a <= y <= b -> continuity_pt gauss y)
    by (intros; apply gauss_continuity).
  set (P := primitive hab (FTC_P1 hab C0)).
  assert (HP : forall y, a <= y <= b -> erf_integral y = P y - P 0).
  { intros y [Hy1 Hy2]. unfold P, primitive.
    destruct (Rle_dec a y) as [r1|]; [|lra].
    destruct (Rle_dec y b) as [r2|]; [|lra].
    destruct (Rle_dec a 0) as [r3|]; [|lra].
    destruct (Rle_dec 0 b) as [r4|]; [|lra].
    unfold erf_integral.
    rewrite <- (RiemannInt_P26 (FTC_P1 hab C0 r3 r4) (gauss_integrable 0 y)
                  (FTC_P1 hab C0 r1 r2)). ring. }
  apply derivable_pt_lim_local with (g := fun y => P y - P 0) (d := Rmin (x - a) (b - x)).
  - apply Rmin_pos; lra.
  - intros y Hy. apply HP.
    assert (Rabs (y - x) < x - a) by (eapply Rlt_le_trans; [exact Hy | apply Rmin_l]).
    assert (Rabs (y - x) < b - x) by (eapply Rlt_le_trans; [exact Hy | apply Rmin_r]).
    split; apply Rabs_def2 in H; apply Rabs_def2 in H0; lra.
  - replace (gauss x) with (gauss x - 0) by ring.
    apply derivable_pt_lim_minus.
    + apply RiemannInt_P28. lra.
    + apply derivable_pt_lim_const.
Qed.

Section Monotone.
Variables (f f' : R -> R) (a b : R).
Hypothesis Hd : forall c, a <= c <= b -> derivable_pt_lim f c (f' c).

Lemma deriv_pos_lt : a < b -> (forall c, a < c < b -> 0 < f' c) -> f a < f b.
Proof.
  intros Hab Hpos. destruct (MVT_cor2 f f' a b Hab Hd) as [c [Heq Hc]].
  specialize (Hpos c Hc). assert (0 < f' c * (b - a)) by (apply Rmult_lt_0_compat; lra). lra.
Qed.

Lemma deriv_nonneg_le : a <= b -> (forall c, a < c < b -> 0 <= f' c) -> f a <= f b.
Proof.
  intros [Hab | Hab] Hpos; [| subst; lra].
  destruct (MVT_cor2 f f' a b Hab Hd) as [c [Heq Hc]].
  specialize (Hpos c Hc). assert (0 <= f' c * (b - a)) by (apply Rmult_le_pos; lra). lra.
Qed.

Lemma deriv_zero_eq : a <= b -> (forall c, a < c < b -> f' c = 0) -> f a = f b.
Proof.
  intros [Hab | Hab] Hz; [| subst; lra].
  destruct (MVT_cor2 f f' a b Hab Hd) as [c [Heq Hc]].
  rewrite (Hz c Hc) in Heq. lra.
Qed.
End Monotone.

Lemma wallis_SS (j : nat) (t : R) :
  wallis (S (S j)) t =
  cos t ^ S j * sin t / INR (S (S j)) + INR (S j) / INR (S (S j)) * wallis j t.
Proof. reflexivity. Qed.

Lemma wallis_step_derive (j : nat) (t : R) :
  derivable_pt_lim (wallis j) t (cos t ^ j) ->
  derivable_pt_lim (wallis (S (S j))) t (cos t ^ S (S j)).
Proof.
  intros IH.
  assert (Hn : INR (S (S j)) <> 0) by (apply not_0_INR; lia).
  assert (Hc : derivable_pt_lim (fun y => cos y ^ S j) t (INR (S j) * cos t ^ j * - sin t)).
  { apply (derivable_pt_lim_comp cos (fun y => y ^ S j)).
    - apply derivable_pt_lim_cos.
    - apply (derivable_pt_lim_pow (cos t) (S j)). }
  pose proof (derivable_pt_lim_mult _ _ _ _ _ Hc (derivable_pt_lim_sin t)) as Hm.
  pose proof (derivable_pt_lim_scal _ (/ INR (S (S j))) _ _ Hm) as H1.
  pose proof (derivable_pt_lim_scal _ (INR (S j) / INR (S (S j))) _ _ IH) as H2.
  pose proof (derivable_pt_lim_plus _ _ _ _ _ H1 H2) as H3.
  apply (derivable_pt_lim_ext _ (wallis (S (S j)))) in H3.
  2:{ intros z. unfold plus_fct, mult_real_fct, mult_fct. rewrite wallis_SS. field. exact Hn. }
  replace (cos t ^ S (S j)) with
    (/ INR (S (S j)) * (INR (S j) * cos t ^ j * - sin t * sin t + cos t ^ S j * cos t) +
     INR (S j) / INR (S (S j)) * cos t ^ j); [exact H3 |].
  assert (Hs : sin t * sin t = 1 - cos t * cos t).
  { pose proof (sin2_cos2 t) as E. unfold Rsqr in E. lra. }
  replace (INR (S j) * cos t ^ j * - sin t * sin t) with
    (- INR (S j) * cos t ^ j * (sin t * sin t)) by ring.
  rewrite Hs. rewrite (S_INR (S j)). simpl pow. field.
  rewrite <- (S_INR (S j)). exact Hn.
Qed.

Lemma wallis_derive (k : nat) (t : R) : derivable_pt_lim (wallis k) t (cos t ^ k).
Proof.
  revert t. enough (H : (forall t, derivable_pt_lim (wallis k) t (cos t ^ k)) /\
                        (forall t, derivable_pt_lim (wallis (S k)) t (cos t ^ S k))) by tauto.
  induction k as [| k [IH1 IH2]].
  - split; intros t.
    + simpl. apply (derivable_pt_lim_id t).
    + simpl. replace (cos t * 1) with (cos t) by ring. apply derivable_pt_lim_sin.
  - split; [exact IH2 |]. intros t. apply wallis_step_derive, IH1.
Qed.

Lemma wallis_0 (k : nat) : wallis k 0 = 0.
Proof.
  enough (H : wallis k 0 = 0 /\ wallis (S k) 0 = 0) by tauto.
  induction k as [| k [IH1 IH2]].
  - simpl. rewrite sin_0. lra.
  - split; [exact IH2 |]. rewrite wallis_SS, sin_0, IH1. unfold Rdiv. ring.
Qed.

Lemma wallis_int_SS (k : nat) :
  wallis_int (S (S k)) = INR (S k) / INR (S (S k)) * wallis_int k.
Proof.
  unfold wallis_int. rewrite wallis_SS, cos_PI2, sin_PI2.
  simpl pow. unfold Rdiv. ring.
Qed.

Lemma wallis_int_prod (k : nat) : INR (S k) * wallis_int k * wallis_int (S k) = PI / 2.
Proof.
  induction k as [| k IH].
  - unfold wallis_int. simpl. rewrite sin_PI2. lra.
  - rewrite wallis_int_SS.
    assert (Hn : INR (S (S k)) <> 0) by (apply not_0_INR; lia).
    rewrite <- IH. field. exact Hn.
Qed.

Lemma cos_pow_nonneg (k : nat) (t : R) : 0 <= t <= PI / 2 -> 0 <= cos t ^ k.
Proof. intros Ht. apply pow_le, cos_ge_0; pose proof PI_RGT_0; lra. Qed.

Lemma wallis_incr (k : nat) (s t : R) :
  0 <= s -> s <= t -> t <= PI / 2 -> wallis k s <= wallis k t.
Proof.
  intros Hs Hst Ht.
  apply (deriv_nonneg_le (wallis k) (fun y => cos y ^ k)); [| exact Hst |].
  - intros c _. apply wallis_derive.
  - intros c Hc. apply cos_pow_nonneg. lra.
Qed.

Lemma wallis_int_decr (k : nat) : wallis_int (S k) <= wallis_int k.
Proof.
  unfold wallis_int.
  pose proof PI_RGT_0 as Hpi.
  assert (H : wallis k 0 - wallis (S k) 0 <= wallis k (PI / 2) - wallis (S k) (PI / 2)).
  { apply (deriv_nonneg_le (fun y => wallis k y - wallis (S k) y)
             (fun y => cos y ^ k - cos y ^ S k)); [| lra |].
    - intros c _. apply derivable_pt_lim_minus; apply wallis_derive.
    - intros c Hc. simpl pow.
      assert (0 <= cos c ^ k) by (apply cos_pow_nonneg; lra).
      pose proof (COS_bound c). nra. }
  rewrite !wallis_0 in H. lra.
Qed.

Lemma wallis_int_pos (k : nat) : 0 < wallis_int k.
Proof.
  enough (H : 0 < wallis_int k /\ 0 < wallis_int (S k)) by tauto.
  induction k as [| k [IH1 IH2]].
  - unfold wallis_int. simpl. rewrite sin_PI2. pose proof PI_RGT_0. lra.
  - split; [exact IH2 |]. rewrite wallis_int_SS.
    apply Rmult_lt_0_compat; [| exact IH1].
    apply Rdiv_lt_0_compat; apply lt_0_INR; lia.
Qed.

(** PI/(2(k+1)) <= I(k)^2  and  I(k+1)^2 <= PI/(2(k+1)) *)
Lemma wallis_int_sqr_lower (k : nat) : PI / 2 <= INR (S k) * (wallis_int k * wallis_int k).
Proof.
  rewrite <- (wallis_int_prod k).
  pose proof (wallis_int_decr k). pose proof (wallis_int_pos k).
  assert (0 < INR (S k)) by (apply lt_0_INR; lia).
  rewrite Rmult_assoc. apply Rmult_le_compat_l; [lra |].
  apply Rmult_le_compat_l; lra.
Qed.

Lemma wallis_int_sqr_upper (k : nat) :
  INR (S k) * (wallis_int (S k) * wallis_int (S k)) <= PI / 2.
Proof.
  rewrite <- (wallis_int_prod k).
  pose proof (wallis_int_decr k). pose proof (wallis_int_pos (S k)).
  assert (0 < INR (S k)) by (apply lt_0_INR; lia).
  rewrite Rmult_assoc. apply Rmult_le_compat_l; [lra |].
  apply Rmult_le_compat_r; lra.
Qed.

Lemma exp_INR_mult (n : nat) (x : R) : exp (INR n * x) = exp x ^ n.
Proof.
  induction n as [| n IH].
  - simpl. rewrite Rmult_0_l. apply exp_0.
  - rewrite S_INR, Rmult_plus_distr_r, Rmult_1_l, exp_plus, IH. simpl. ring.
Qed.

Lemma derivable_pt_lim_lin (a y : R) : derivable_pt_lim (fun z => a * z) y a.
Proof.
  pose proof (derivable_pt_lim_scal id a y 1 (derivable_pt_lim_id y)) as H.
  rewrite Rmult_1_r in H. exact H.
Qed.

Lemma erf_integral_0 : erf_integral 0 = 0.
Proof. unfold erf_integral. apply RiemannInt_P9. Qed.

Lemma gauss_pos (t : R) : 0 < gauss t.
Proof. apply exp_pos. Qed.

Lemma erf_integral_increasing (x y : R) : x < y -> erf_integral x < erf_integral y.
Proof.
  intros Hxy. apply (deriv_pos_lt erf_integral gauss); [| exact Hxy |].
  - intros c _. apply erf_integral_derive.
  - intros c _. apply gauss_pos.
Qed.

Lemma erf_integral_odd (x : R) : erf_integral (- x) = - erf_integral x.
Proof.
  assert (Hd : forall c, derivable_pt_lim (fun y => erf_integral y + erf_integral (- y)) c
                           (gauss c + gauss (- c) * -1)).
  { intros c. apply derivable_pt_lim_plus; [apply erf_integral_derive |].
    apply (derivable_pt_lim_comp (fun y => - y) erf_integral).
    - apply derivable_pt_lim_opp_fwd. replace (- -1) with 1 by ring.
      apply (derivable_pt_lim_id c).
    - apply erf_integral_derive. }
  assert (Hz : forall c, gauss c + gauss (- c) * -1 = 0).
  { intros c. unfold gauss. replace (- c * - c) with (c * c) by ring. ring. }
  assert (H0 : erf_integral 0 + erf_integral (- 0) = 0).
  { rewrite Ropp_0, erf_integral_0. ring. }
  destruct (Rle_dec 0 x) as [Hx | Hx].
  - pose proof (deriv_zero_eq _ _ 0 x (fun c _ => Hd c) Hx (fun c _ => Hz c)) as E.
    simpl in E. lra.
  - pose proof (deriv_zero_eq _ _ x 0 (fun c _ => Hd c) ltac:(lra) (fun c _ => Hz c)) as E.
    simpl in E. lra.
Qed.

Section GaussBounds.
Variable N : nat.
Hypothesis HN : (0 < N)%nat.
Let c := sqrt (INR N).

Lemma scale_pos : 0 < c.
Proof. apply sqrt_lt_R0, lt_0_INR, HN. Qed.

Lemma scale_sqr : c * c = INR N.
Proof. apply sqrt_sqrt, pos_INR. Qed.

Lemma gauss_scaled (u : R) : gauss (c * u) = exp (- (u * u)) ^ N.
Proof.
  unfold gauss. rewrite <- exp_INR_mult. f_equal.
  rewrite <- scale_sqr. ring.
Qed.

(** Lower bound: integrate exp(-t^2) >= (1 - t^2/N)^N along t = c sin(theta). *)
Lemma erf_integral_lower : c * wallis_int (2 * N + 1) <= erf_integral c.
Proof.
  pose proof PI_RGT_0 as Hpi. pose proof scale_pos as Hc.
  set (h := fun y => erf_integral (c * sin y) - c * wallis (2 * N + 1) y).
  set (h' := fun y => gauss (c * sin y) * (c * cos y) - c * cos y ^ (2 * N + 1)).
  assert (Hd : forall y, derivable_pt_lim h y (h' y)).
  { intros y. unfold h, h'. apply derivable_pt_lim_minus.
    - apply (derivable_pt_lim_comp (fun y => c * sin y) erf_integral).
      + apply (derivable_pt_lim_scal sin c y (cos y)), derivable_pt_lim_sin.
      + apply erf_integral_derive.
    - apply (derivable_pt_lim_scal (wallis (2 * N + 1)) c y), wallis_derive. }
  assert (Hle : h 0 <= h (PI / 2)).
  { apply (deriv_nonneg_le h h'); [intros; apply Hd | lra |].
    intros y Hy. unfold h'. rewrite gauss_scaled.
    assert (Hcos : 0 <= cos y) by (apply cos_ge_0; lra).
    assert (Hp : (cos y * cos y) ^ N <= exp (- (sin y * sin y)) ^ N).
    { apply pow_incr. split; [nra |].
      pose proof (exp_ineq1_le (- (sin y * sin y))).
      pose proof (sin2_cos2 y) as E. unfold Rsqr in E. lra. }
    replace (cos y ^ (2 * N + 1)) with ((cos y * cos y) ^ N * cos y).
    - assert (0 <= (exp (- (sin y * sin y)) ^ N - (cos y * cos y) ^ N) * (c * cos y)).
      { apply Rmult_le_pos; [lra | nra]. }
      lra.
    - rewrite pow_add, pow_mult, pow_1.
      replace (cos y ^ 2) with (cos y * cos y) by ring. reflexivity. }
  unfold h in Hle. rewrite sin_0, sin_PI2, wallis_0, Rmult_0_r, erf_integral_0 in Hle.
  fold (wallis_int (2 * N + 1)) in Hle. rewrite Rmult_1_r in Hle. lra.
Qed.

(** Upper bound: integrate exp(-t^2) <= (1 + t^2/N)^-N along t = c tan(theta). *)
Lemma erf_integral_upper (x : R) : 0 <= x -> erf_integral x <= c * wallis_int (2 * (N - 1)).
Proof.
  intros Hx. pose proof PI_RGT_0 as Hpi. pose proof scale_pos as Hc.
  set (K := (2 * (N - 1))%nat).
  set (h := fun y => c * wallis K (atan (/ c * y)) - erf_integral y).
  set (h' := fun y => c * (cos (atan (/ c * y)) ^ K * (/ (1 + (/ c * y) ^ 2) * / c)) - gauss y).
  assert (Hd : forall y, derivable_pt_lim h y (h' y)).
  { intros y. unfold h, h'. apply derivable_pt_lim_minus; [| apply erf_integral_derive].
    apply (derivable_pt_lim_scal (fun y => wallis K (atan (/ c * y))) c y).
    apply (derivable_pt_lim_comp (fun y => atan (/ c * y)) (wallis K)); [| apply wallis_derive].
    apply (derivable_pt_lim_comp (fun y => / c * y) atan); [| apply derivable_pt_lim_atan].
    apply derivable_pt_lim_lin. }
  assert (Hle : h 0 <= h x).
  { apply (deriv_nonneg_le h h'); [intros; apply Hd | lra |].
    intros y Hy. unfold h'.
    set (u := / c * y).
    assert (Hu : 0 < 1 + u * u) by nra.
    assert (Hcos : cos (atan u) * cos (atan u) = / (1 + u * u)).
    { rewrite cos_atan. unfold Rsqr.
      assert (Hs : 0 < sqrt (1 + u * u)) by (apply sqrt_lt_R0; exact Hu).
      pose proof (sqrt_sqrt (1 + u * u) ltac:(lra)) as E.
      apply Rmult_eq_reg_r with (1 + u * u); [| lra].
      rewrite Rinv_l by lra. rewrite <- E at 3. field. lra. }
    assert (Hg : gauss y = exp (- (u * u)) ^ N).
    { rewrite <- gauss_scaled. f_equal. unfold u. field. lra. }
    assert (Hw : c * (cos (atan u) ^ K * (/ (1 + u ^ 2) * / c)) = (/ (1 + u * u)) ^ N).
    { unfold K. rewrite pow_mult.
      replace (cos (atan u) ^ 2) with (/ (1 + u * u)) by (rewrite <- Hcos; ring).
      replace (u ^ 2) with (u * u) by ring.
      replace N with (S (N - 1)) at 2 by lia. simpl pow. field. split; lra. }
    rewrite Hw, Hg.
    assert (exp (- (u * u)) ^ N <= (/ (1 + u * u)) ^ N); [| lra].
    apply pow_incr. split; [left; apply exp_pos |].
    rewrite exp_Ropp. apply Rinv_le_contravar; [exact Hu |].
    apply exp_ineq1_le. }
  unfold h in Hle. rewrite Rmult_0_r, atan_0, wallis_0, erf_integral_0 in Hle.
  assert (Hat : wallis K (atan (/ c * x)) <= wallis_int K).
  { unfold wallis_int. pose proof (atan_bound (/ c * x)) as Hb.
    assert (0 <= / c * x).
    { apply Rmult_le_pos; [left; apply Rinv_0_lt_compat; exact Hc | exact Hx]. }
    assert (0 <= atan (/ c * x)).
    { destruct H as [H | H]; [| rewrite <- H, atan_0; lra].
      rewrite <- atan_0. left. apply atan_increasing. exact H. }
    apply wallis_incr; lra. }
  assert (c * wallis K (atan (/ c * x)) <= c * wallis_int K)
    by (apply Rmult_le_compat_l; lra).
  lra.
Qed.
End GaussBounds.

Lemma erf_integral_nonneg (x : R) : 0 <= x -> 0 <= erf_integral x.
Proof.
  intros [Hx | Hx]; [| subst; rewrite erf_integral_0; lra].
  rewrite <- erf_integral_0. left. apply erf_integral_increasing, Hx.
Qed.

Lemma erf_integral_sqr_upper (n : nat) (x : R) :
  0 <= x -> erf_integral x * erf_integral x <= PI / 4 * (1 + / INR (S n)).
Proof.
  intros Hx.
  assert (HN : (0 < n + 2)%nat) by lia.
  pose proof (erf_integral_upper (n + 2) HN x Hx) as Hu.
  pose proof (erf_integral_nonneg x Hx) as H0.
  replace (2 * (n + 2 - 1))%nat with (S (2 * n + 1)) in Hu by lia.
  pose proof (wallis_int_sqr_upper (2 * n + 1)) as Hw.
  pose proof (wallis_int_pos (S (2 * n + 1))) as Hp.
  set (I := wallis_int (S (2 * n + 1))) in *.
  set (c := sqrt (INR (n + 2))) in *.
  assert (Hc : c * c = INR (n + 2)) by (apply sqrt_sqrt, pos_INR).
  assert (Hcp : 0 < c) by (apply sqrt_lt_R0, lt_0_INR; lia).
  assert (Hn : 0 < INR (S n)) by (apply lt_0_INR; lia).
  assert (E1 : INR (S (2 * n + 1)) = 2 * INR (S n)).
  { replace (S (2 * n + 1)) with (2 * S n)%nat by lia. rewrite mult_INR. simpl INR at 1. ring. }
  assert (E2 : INR (n + 2) = INR (S n) + 1).
  { rewrite <- S_INR. f_equal. lia. }
  rewrite E1 in Hw.
  assert (Hsq : erf_integral x * erf_integral x <= (c * c) * (I * I)).
  { replace (c * c * (I * I)) with ((c * I) * (c * I)) by ring.
    apply Rmult_le_compat; lra. }
  rewrite Hc, E2 in Hsq.
  assert (HI : I * I <= PI / 4 * / INR (S n)).
  { apply Rmult_le_reg_l with (2 * INR (S n)); [lra |].
    replace (2 * INR (S n) * (PI / 4 * / INR (S n))) with (PI / 2) by (field; lra). lra. }
  assert ((INR (S n) + 1) * (I * I) <= (INR (S n) + 1) * (PI / 4 * / INR (S n)))
    by (apply Rmult_le_compat_l; lra).
  replace (PI / 4 * (1 + / INR (S n))) with ((INR (S n) + 1) * (PI / 4 * / INR (S n)))
    by (field; lra).
  lra.
Qed.

Lemma sqrt_PI_pos : 0 < sqrt PI.
Proof. apply sqrt_lt_R0, PI_RGT_0. Qed.

Lemma sqrt_PI_sqr : sqrt PI * sqrt PI = PI.
Proof. apply sqrt_sqrt. left. apply PI_RGT_0. Qed.

Lemma erf_integral_le (x : R) : erf_integral x <= sqrt PI / 2.
Proof.
  pose proof sqrt_PI_pos as Hs. pose proof sqrt_PI_sqr as Hq. pose proof PI_RGT_0 as Hpi.
  destruct (Rlt_le_dec x 0) as [Hx | Hx].
  { pose proof (erf_integral_increasing x 0 Hx) as H. rewrite erf_integral_0 in H. lra. }
  destruct (Rle_lt_dec (erf_integral x) (sqrt PI / 2)) as [H | H]; [exact H | exfalso].
  set (g := erf_integral x) in *.
  assert (Hg : PI / 4 < g * g).
  { replace (PI / 4) with ((sqrt PI / 2) * (sqrt PI / 2)) by (rewrite <- Hq at 3; field).
    apply Rmult_le_0_lt_compat; lra. }
  destruct (archimed_cor1 ((g * g - PI / 4) / (PI / 4))) as [M [HM HM0]].
  { apply Rdiv_lt_0_compat; lra. }
  pose proof (erf_integral_sqr_upper (M - 1) x Hx) as Hu. fold g in Hu.
  replace (S (M - 1)) with M in Hu by lia.
  assert (Hlt : PI / 4 * / INR M < g * g - PI / 4).
  { apply Rmult_lt_compat_l with (r := PI / 4) in HM; [| lra].
    replace (PI / 4 * ((g * g - PI / 4) / (PI / 4))) with (g * g - PI / 4) in HM by (field; lra).
    exact HM. }
  lra.
Qed.

Lemma erf_integral_lt (x : R) : erf_integral x < sqrt PI / 2.
Proof.
  eapply Rlt_le_trans; [apply (erf_integral_increasing x (x + 1)); lra | apply erf_integral_le].
Qed.

Lemma erf_integral_at_sqrt (n : nat) :
  sqrt PI / 2 * (1 - / INR (S n)) <= erf_integral (sqrt (INR (S n))).
Proof.
  pose proof sqrt_PI_pos as Hs. pose proof sqrt_PI_sqr as Hq. pose proof PI_RGT_0 as Hpi.
  assert (HN : (0 < S n)%nat) by lia.
  pose proof (erf_integral_lower (S n) HN) as Hl.
  pose proof (wallis_int_sqr_lower (2 * S n + 1)) as Hw.
  pose proof (wallis_int_pos (2 * S n + 1)) as Hp.
  set (I := wallis_int (2 * S n + 1)) in *.
  set (c := sqrt (INR (S n))) in *.
  assert (Hc : c * c = INR (S n)) by (apply sqrt_sqrt, pos_INR).
  assert (Hcp : 0 < c) by (apply sqrt_lt_R0, lt_0_INR; lia).
  assert (Hn : 1 <= INR (S n)) by (rewrite S_INR; pose proof (pos_INR n); lra).
  assert (E1 : INR (S (2 * S n + 1)) = 2 * (INR (S n) + 1)).
  { replace (S (2 * S n + 1)) with (2 * S (S n))%nat by lia.
    rewrite mult_INR, (S_INR (S n)). simpl INR at 1. ring. }
  rewrite E1 in Hw.
  set (m := INR (S n)) in *.
  set (A := sqrt PI / 2).
  assert (HA : A * A = PI / 4) by (unfold A; rewrite <- Hq at 3; field).
  assert (Hi : 0 < / m) by (apply Rinv_0_lt_compat; lra).
  assert (Hi1 : / m <= 1) by (rewrite <- Rinv_1; apply Rinv_le_contravar; lra).
  assert (Hmi : m * / m = 1) by (apply Rinv_r; lra).
  (* (c I)^2 = m I^2 >= (PI/4) m/(m+1) >= (PI/4) (1 - 1/m)^2 *)
  assert (H1 : A * A * (1 - / m) <= (c * I) * (c * I)).
  { replace ((c * I) * (c * I)) with (m * (I * I)) by (rewrite <- Hc; ring).
    rewrite HA.
    apply Rmult_le_reg_l with (2 * (m + 1)); [lra |].
    apply Rle_trans with (m * (PI / 2)).
    - replace (2 * (m + 1) * (PI / 4 * (1 - / m))) with ((PI / 2) * ((m + 1) * (1 - / m))) by (field; lra).
      rewrite (Rmult_comm m). apply Rmult_le_compat_l; [lra |].
      replace ((m + 1) * (1 - / m)) with (m - / m) by (field; lra). lra.
    - replace (2 * (m + 1) * (m * (I * I))) with (m * (2 * (m + 1) * (I * I))) by ring.
      apply Rmult_le_compat_l; lra. }
  assert (H2 : (A * (1 - / m)) * (A * (1 - / m)) <= (c * I) * (c * I)).
  { eapply Rle_trans; [| exact H1].
    replace (A * (1 - / m) * (A * (1 - / m))) with (A * A * (1 - / m) * (1 - / m)) by ring.
    rewrite <- (Rmult_1_r (A * A * (1 - / m))) at 2.
    apply Rmult_le_compat_l; [| lra].
    apply Rmult_le_pos; [| lra]. rewrite HA. lra. }
  assert (H3 : A * (1 - / m) <= c * I).
  { destruct (Rle_lt_dec (A * (1 - / m)) (c * I)) as [H | H]; [exact H | exfalso].
    assert (0 < c * I) by (apply Rmult_lt_0_compat; lra).
    assert ((c * I) * (c * I) < (A * (1 - / m)) * (A * (1 - / m)))
      by (apply Rmult_le_0_lt_compat; lra).
    lra. }
  lra.
Qed.

Lemma erf_integral_limit (eps : R) :
  0 < eps -> exists X, 0 < X /\ forall x, X <= x -> sqrt PI / 2 - eps < erf_integral x.
Proof.
  intros Heps.
  pose proof sqrt_PI_pos as Hs.
  destruct (archimed_cor1 (eps / (sqrt PI / 2))) as [M [HM HM0]].
  { apply Rdiv_lt_0_compat; lra. }
  exists (sqrt (INR M)). split; [apply sqrt_lt_R0, lt_0_INR, HM0 |].
  intros x Hx.
  pose proof (erf_integral_at_sqrt (M - 1)) as Hl.
  replace (S (M - 1)) with M in Hl by lia.
  assert (Hm : erf_integral (sqrt (INR M)) <= erf_integral x).
  { destruct Hx as [Hx | Hx]; [left; apply erf_integral_increasing, Hx | subst; lra]. }
  apply Rmult_lt_compat_l with (r := sqrt PI / 2) in HM; [| lra].
  replace (sqrt PI / 2 * (eps / (sqrt PI / 2))) with eps in HM by (field; lra).
  lra.
Qed.

(** ** Part VII.  The standard normal distribution function *)

Lemma sqrt2_pos : 0 < sqrt 2.
Proof. apply sqrt_lt_R0. lra. Qed.

Lemma sqrt2_sqr : sqrt 2 * sqrt 2 = 2.
Proof. apply sqrt_sqrt. lra. Qed.

Lemma erf_coeff_pos : 0 < 2 / sqrt PI.
Proof. apply Rdiv_lt_0_compat; [lra | apply sqrt_PI_pos]. Qed.

Lemma erf_0 : erf 0 = 0.
Proof. unfold erf. rewrite erf_integral_0. ring. Qed.

Lemma erf_odd (z : R) : erf (- z) = - erf z.
Proof. unfold erf. rewrite erf_integral_odd. ring. Qed.

Lemma erf_increasing (x y : R) : x < y -> erf x < erf y.
Proof.
  intros H. unfold erf. apply Rmult_lt_compat_l; [apply erf_coeff_pos |].
  apply erf_integral_increasing, H.
Qed.

Lemma erf_lt_1 (z : R) : erf z < 1.
Proof.
  unfold erf. pose proof sqrt_PI_pos as Hs. pose proof (erf_integral_lt z) as H.
  apply Rmult_lt_reg_l with (sqrt PI / 2); [lra |].
  replace (sqrt PI / 2 * (2 / sqrt PI * erf_integral z)) with (erf_integral z) by (field; lra).
  lra.
Qed.

Lemma erf_gt_m1 (z : R) : -1 < erf z.
Proof. pose proof (erf_lt_1 (- z)) as H. rewrite erf_odd in H. lra. Qed.

Lemma erf_derive (z : R) : derivable_pt_lim erf z (2 / sqrt PI * gauss z).
Proof.
  unfold erf. apply (derivable_pt_lim_scal erf_integral (2 / sqrt PI) z).
  apply erf_integral_derive.
Qed.

Lemma erf_limit (eps : R) : 0 < eps -> exists X, 0 < X /\ forall x, X <= x -> 1 - eps < erf x.
Proof.
  intros Heps. pose proof sqrt_PI_pos as Hs.
  destruct (erf_integral_limit (eps * (sqrt PI / 2))) as [X [HX H]].
  { apply Rmult_lt_0_compat; lra. }
  exists X. split; [exact HX |]. intros x Hx. specialize (H x Hx).
  unfold erf. apply Rmult_lt_reg_l with (sqrt PI / 2); [lra |].
  replace (sqrt PI / 2 * (2 / sqrt PI * erf_integral x)) with (erf_integral x) by (field; lra).
  lra.
Qed.

Lemma sqrt_2PI : sqrt (2 * PI) = sqrt 2 * sqrt PI.
Proof. apply sqrt_mult; [lra | left; apply PI_RGT_0]. Qed.

Lemma sqrt_2PI_pos : 0 < sqrt (2 * PI).
Proof. apply sqrt_lt_R0. pose proof PI_RGT_0. lra. Qed.

Lemma norm_pdf_pos (x : R) : 0 < norm_pdf x.
Proof. apply Rdiv_lt_0_compat; [apply exp_pos | apply sqrt_2PI_pos]. Qed.

Lemma norm_pdf_even (x : R) : norm_pdf (- x) = norm_pdf x.
Proof. unfold norm_pdf. do 2 f_equal. field. Qed.

Lemma ndtr_0 : ndtr 0 = 1 / 2.
Proof.
  unfold ndtr. replace (0 / sqrt 2) with 0 by (unfold Rdiv; ring).
  rewrite erf_0. lra.
Qed.

Lemma ndtr_opp (x : R) : ndtr (- x) = 1 - ndtr x.
Proof.
  unfold ndtr. pose proof sqrt2_pos.
  replace (- x / sqrt 2) with (- (x / sqrt 2)) by (field; lra).
  rewrite erf_odd. lra.
Qed.

Lemma ndtr_pos (x : R) : 0 < ndtr x.
Proof. unfold ndtr. pose proof (erf_gt_m1 (x / sqrt 2)). lra. Qed.

Lemma ndtr_lt_1 (x : R) : ndtr x < 1.
Proof. unfold ndtr. pose proof (erf_lt_1 (x / sqrt 2)). lra. Qed.

Lemma ndtr_increasing (x y : R) : x < y -> ndtr x < ndtr y.
Proof.
  intros H. unfold ndtr. pose proof sqrt2_pos as Hs.
  assert (x / sqrt 2 < y / sqrt 2).
  { unfold Rdiv. apply Rmult_lt_compat_r; [apply Rinv_0_lt_compat; lra | exact H]. }
  pose proof (erf_increasing _ _ H0). lra.
Qed.

Lemma ndtr_derive (x : R) : derivable_pt_lim ndtr x (norm_pdf x).
Proof.
  pose proof sqrt2_pos as Hs. pose proof sqrt_PI_pos as Hp. pose proof sqrt2_sqr as Hq.
  assert (H1 : derivable_pt_lim (fun y => / sqrt 2 * y) x (/ sqrt 2))
    by apply derivable_pt_lim_lin.
  pose proof (derivable_pt_lim_comp _ erf x _ _ H1 (erf_derive (/ sqrt 2 * x))) as H2.
  pose proof (derivable_pt_lim_plus _ _ x _ _ (derivable_pt_lim_const 1 x) H2) as H3.
  pose proof (derivable_pt_lim_scal _ (/ 2) x _ H3) as H4.
  apply (derivable_pt_lim_ext _ ndtr) in H4.
  2:{ intros z. unfold mult_real_fct, plus_fct, fct_cte, comp, ndtr.
      replace (z / sqrt 2) with (/ sqrt 2 * z) by (field; lra). field. }
  replace (norm_pdf x) with (/ 2 * (0 + 2 / sqrt PI * gauss (/ sqrt 2 * x) * / sqrt 2));
    [exact H4 |].
  unfold norm_pdf, gauss. rewrite sqrt_2PI.
  replace (- (/ sqrt 2 * x * (/ sqrt 2 * x))) with (- (x * x) / 2).
  - field. lra.
  - rewrite <- Hq at 1. field. lra.
Qed.

Lemma ndtr_limit_1 (eps : R) :
  0 < eps -> exists X, 0 < X /\ forall x, X <= x -> 1 - eps < ndtr x.
Proof.
  intros Heps. pose proof sqrt2_pos as Hs.
  destruct (erf_limit eps Heps) as [X [HX H]].
  exists (X * sqrt 2). split; [apply Rmult_lt_0_compat; lra |].
  intros x Hx. unfold ndtr.
  assert (X <= x / sqrt 2).
  { apply Rmult_le_reg_r with (sqrt 2); [lra |].
    replace (x / sqrt 2 * sqrt 2) with x by (field; lra). exact Hx. }
  specialize (H _ H0). lra.
Qed.

Lemma ndtr_limit_0 (eps : R) :
  0 < eps -> exists X, 0 < X /\ forall x, x <= - X -> ndtr x < eps.
Proof.
  intros Heps. destruct (ndtr_limit_1 eps Heps) as [X [HX H]].
  exists X. split; [exact HX |]. intros x Hx.
  specialize (H (- x) ltac:(lra)). rewrite ndtr_opp in H. lra.
Qed.

(** [ndtr] is Lipschitz: its derivative is at most 1. *)
Lemma norm_pdf_le_1 (x : R) : norm_pdf x <= 1.
Proof.
  unfold norm_pdf. pose proof sqrt_2PI_pos as Hs.
  assert (H1 : 1 <= sqrt (2 * PI)).
  { rewrite <- sqrt_1. apply sqrt_le_1_alt. pose proof PI2_3_2. lra. }
  assert (H2 : exp (- (x * x) / 2) <= 1).
  { rewrite <- exp_0. destruct (Req_dec x 0) as [-> | Hx].
    - right. f_equal. field.
    - left. apply exp_increasing. nra. }
  apply Rmult_le_reg_r with (sqrt (2 * PI)); [lra |].
  replace (exp (- (x * x) / 2) / sqrt (2 * PI) * sqrt (2 * PI)) with (exp (- (x * x) / 2))
    by (field; lra).
  lra.
Qed.

Lemma ndtr_lipschitz (x y : R) : Rabs (ndtr x - ndtr y) <= Rabs (x - y).
Proof.
  assert (H : forall a b, a < b -> Rabs (ndtr b - ndtr a) <= Rabs (b - a)).
  { intros a b Hab.
    destruct (MVT_cor2 ndtr norm_pdf a b Hab (fun c _ => ndtr_derive c)) as [c [Hc _]].
    rewrite Hc, Rabs_mult. rewrite <- (Rmult_1_l (Rabs (b - a))) at 2.
    apply Rmult_le_compat_r; [apply Rabs_pos |].
    rewrite Rabs_pos_eq; [apply norm_pdf_le_1 | left; apply norm_pdf_pos]. }
  destruct (Rtotal_order x y) as [Hlt | [-> | Hgt]].
  - rewrite (Rabs_minus_sym (ndtr x)), (Rabs_minus_sym x). apply H, Hlt.
  - replace (ndtr y - ndtr y) with 0 by ring. rewrite Rabs_R0. apply Rabs_pos.
  - apply H, Hgt.
Qed.

(** ** Part VIII.  Finite floats compute like real numbers *)

Lemma xval_xfin (s : bool) (x : R) : xval (xfin s x) = Some x.
Proof.
  unfold xfin. destruct (Req_dec_T x 0) as [-> |]; [| reflexivity].
  destruct s; reflexivity.
Qed.

Lemma xval_finite (a : xfloat) (x : R) :
  xval a = Some x -> (a = XFin x) \/ (a = XNegZero /\ x = 0).
Proof.
  destruct a; simpl; intros H; inversion H; subst; auto.
Qed.

Lemma is_zero_false (a : xfloat) (x : R) : xval a = Some x -> x <> 0 -> is_zero a = false.
Proof.
  intros H Hx. destruct (xval_finite a x H) as [-> | [-> ->]]; [| lra].
  simpl. destruct (Req_dec_T x 0); [contradiction | reflexivity].
Qed.

Section FiniteOps.
Variables (a b : xfloat) (x y : R).
Hypothesis Ha : xval a = Some x.
Hypothesis Hb : xval b = Some y.

Lemma xval_xneg : xval (xneg a) = Some (- x).
Proof.
  destruct (xval_finite a x Ha) as [-> | [-> ->]]; simpl.
  - apply xval_xfin.
  - f_equal. ring.
Qed.

Lemma xval_xmul : xval (xmul a b) = Some (x * y).
Proof. unfold xmul. rewrite Ha, Hb. apply xval_xfin. Qed.

Lemma xval_xadd : xval (xadd a b) = Some (x + y).
Proof.
  destruct (xval_finite a x Ha) as [-> | [-> ->]];
    destruct (xval_finite b y Hb) as [-> | [-> ->]]; simpl; apply xval_xfin.
Qed.

Lemma xval_xdiv : y <> 0 -> xval (xdiv a b) = Some (x / y).
Proof.
  intros Hy.
  destruct (xval_finite b y Hb) as [-> | [-> ->]]; [| lra].
  destruct (xval_finite a x Ha) as [-> | [-> ->]]; unfold xdiv; simpl;
    (destruct (Req_dec_T y 0); [contradiction | apply xval_xfin]).
Qed.

Lemma xval_np_log : 0 < x -> xval (np_log a) = Some (ln x).
Proof.
  intros Hx. destruct (xval_finite a x Ha) as [-> | [-> ->]]; [| lra].
  simpl. destruct (Rlt_dec 0 x); [reflexivity | contradiction].
Qed.

Lemma xval_np_sqrt : 0 <= x -> xval (np_sqrt a) = Some (sqrt x).
Proof.
  intros Hx. destruct (xval_finite a x Ha) as [-> | [-> ->]]; simpl.
  - destruct (Rle_dec 0 x); [reflexivity | contradiction].
  - rewrite sqrt_0. reflexivity.
Qed.

Lemma xval_np_exp : xval (np_exp a) = Some (exp x).
Proof.
  destruct (xval_finite a x Ha) as [-> | [-> ->]]; simpl; [reflexivity |].
  rewrite exp_0. reflexivity.
Qed.

Lemma xval_norm_cdf : xval (norm_cdf a 0.0 1.0) = Some (ndtr x).
Proof.
  unfold norm_cdf. destruct (Rlt_dec 0 1.0) as [_ | H]; [| exfalso; lra].
  destruct (xval_finite a x Ha) as [-> | [-> ->]]; simpl; do 2 f_equal; lra.
Qed.

Lemma py_div_finite : y <> 0 -> exists c, py_div a b = Ok c /\ xval c = Some (x / y).
Proof.
  intros Hy. unfold py_div. rewrite (is_zero_false b y Hb Hy).
  eexists. split; [reflexivity | apply xval_xdiv, Hy].
Qed.
End FiniteOps.

Lemma xval_xsub (a b : xfloat) (x y : R) :
  xval a = Some x -> xval b = Some y -> xval (xsub a b) = Some (x - y).
Proof.
  intros Ha Hb. unfold xsub, Rminus. apply xval_xadd; [exact Ha | apply xval_xneg, Hb].
Qed.

Lemma xval_sqr (x : R) : xval (xmul (XFin x) (XFin x)) = Some (x ^ 2).
Proof.
  rewrite (xval_xmul (XFin x) (XFin x) x x eq_refl eq_refl). f_equal. ring.
Qed.

(** The squares the power accepts. *)
Lemma max_float_large : 1000 <= max_float.
Proof.
  unfold max_float.
  assert (H52 : 1 <= 2 ^ 52) by (apply pow_R1_Rle; lra).
  assert (Hi : / 2 ^ 52 <= 1).
  { rewrite <- Rinv_1. apply Rinv_le_contravar; lra. }
  assert (H : 1 <= 2 ^ 1013) by (apply pow_R1_Rle; lra).
  replace (2 ^ 1023) with (2 ^ 10 * 2 ^ 1013) by (rewrite <- pow_add; reflexivity).
  replace (2 ^ 10) with 1024 by (simpl; ring).
  nra.
Qed.

Lemma py_sqr_finite (x : R) :
  x * x <= max_float -> py_sqr (XFin x) = Ok (xmul (XFin x) (XFin x)).
Proof.
  intros H. unfold py_sqr. destruct (Rlt_dec max_float (x * x)); [lra | reflexivity].
Qed.

Lemma xval_XFin (x : R) : xval (XFin x) = Some x.
Proof. reflexivity. Qed.

Ltac xval_step :=
  first [ apply xval_XFin
        | apply xval_norm_cdf
        | apply xval_sqr
        | apply xval_xsub
        | apply xval_xadd
        | apply xval_xmul
        | apply xval_xneg
        | apply xval_np_exp ].

Section ValidInputs.
Variables S K T r sigma : R.
Hypothesis HS : 0 < S.
Hypothesis HK : 0 < K.
Hypothesis HT : 0 < T.
Hypothesis Hsigma : 0 < sigma.
Hypothesis Hrange : sigma * sigma <= max_float.

Lemma quotient_pos : 0 < S / K.
Proof. apply Rdiv_lt_0_compat; assumption. Qed.

Lemma vol_pos : 0 < sigma * sqrt T.
Proof. apply Rmult_lt_0_compat; [assumption | apply sqrt_lt_R0; assumption]. Qed.

Lemma xval_d_code (q1 : xfloat) (drift : xfloat) (m : R) :
  xval q1 = Some (S / K) -> xval drift = Some m ->
  xval (xdiv (xadd (np_log q1) (xmul drift (XFin T)))
             (xmul (XFin sigma) (np_sqrt (XFin T))))
  = Some ((ln (S / K) + m * T) / (sigma * sqrt T)).
Proof.
  intros Hq Hm. apply xval_xdiv.
  - apply xval_xadd; [apply xval_np_log; [exact Hq | apply quotient_pos] |].
    apply xval_xmul; [exact Hm | reflexivity].
  - apply xval_xmul; [reflexivity | apply xval_np_sqrt; [reflexivity | lra]].
  - pose proof vol_pos. lra.
Qed.

Lemma put_option_price_returns :
  returns (put_option_price S K T r sigma) (put_value S K T r sigma).
Proof.
  unfold returns, put_option_price.
  destruct (py_div_finite (XFin S) (XFin K) S K eq_refl eq_refl ltac:(lra)) as [c [Hc Hv]].
  rewrite Hc, (py_sqr_finite sigma Hrange). cbn [bind]. eexists. split; [reflexivity |].
  unfold put_value, d1_code, d2_code.
  repeat xval_step; apply xval_d_code; try exact Hv; repeat xval_step.
Qed.

Lemma put_option_price_div_returns (q : R) :
  returns (put_option_price_div S K T r sigma q) (put_div_value S K T r sigma q).
Proof.
  unfold returns, put_option_price_div.
  destruct (py_div_finite (XFin S) (XFin K) S K eq_refl eq_refl ltac:(lra)) as [c [Hc Hv]].
  rewrite Hc, (py_sqr_finite sigma Hrange). cbn [bind]. eexists. split; [reflexivity |].
  unfold put_div_value, d1_code, d2_code.
  repeat xval_step; apply xval_d_code; try exact Hv; repeat xval_step.
Qed.

End ValidInputs.

Lemma returns_unique (res : result xfloat) (u v : R) : returns res u -> returns res v -> u = v.
Proof.
  intros [a [Ha Hu]] [b [Hb Hv]]. rewrite Ha in Hb. inversion Hb; subst.
  rewrite Hu in Hv. inversion Hv. reflexivity.
Qed.

(** ** Part IX.  Derivatives of expressions *)

Section DerivRules.
Variables (f g : R -> R) (x l1 l2 : R).
Hypothesis Hf : derivable_pt_lim f x l1.
Hypothesis Hg : derivable_pt_lim g x l2.

Lemma D_plus : derivable_pt_lim (fun y => f y + g y) x (l1 + l2).
Proof. exact (derivable_pt_lim_plus f g x l1 l2 Hf Hg). Qed.

Lemma D_minus : derivable_pt_lim (fun y => f y - g y) x (l1 - l2).
Proof. exact (derivable_pt_lim_minus f g x l1 l2 Hf Hg). Qed.

Lemma D_mult : derivable_pt_lim (fun y => f y * g y) x (l1 * g x + f x * l2).
Proof. exact (derivable_pt_lim_mult f g x l1 l2 Hf Hg). Qed.

Lemma D_opp : derivable_pt_lim (fun y => - f y) x (- l1).
Proof. exact (derivable_pt_lim_opp f x l1 Hf). Qed.

Lemma D_div :
  g x <> 0 -> derivable_pt_lim (fun y => f y / g y) x ((l1 * g x - l2 * f x) / Rsqr (g x)).
Proof. intros Hx. exact (derivable_pt_lim_div f g x l1 l2 Hf Hg Hx). Qed.

Lemma D_comp (h : R -> R) (l : R) :
  derivable_pt_lim h (f x) l -> derivable_pt_lim (fun y => h (f y)) x (l * l1).
Proof. intros Hh. exact (derivable_pt_lim_comp f h x l1 l Hf Hh). Qed.

Lemma D_pow (n : nat) : derivable_pt_lim (fun y => f y ^ n) x (INR n * f x ^ pred n * l1).
Proof. apply (D_comp (fun z => z ^ n)). apply derivable_pt_lim_pow. Qed.

Lemma D_exp : derivable_pt_lim (fun y => exp (f y)) x (exp (f x) * l1).
Proof. apply (D_comp exp). apply derivable_pt_lim_exp. Qed.

Lemma D_ln : 0 < f x -> derivable_pt_lim (fun y => ln (f y)) x (/ f x * l1).
Proof. intros Hx. apply (D_comp ln). apply derivable_pt_lim_ln, Hx. Qed.

Lemma D_ndtr : derivable_pt_lim (fun y => ndtr (f y)) x (norm_pdf (f x) * l1).
Proof. apply (D_comp ndtr). apply ndtr_derive. Qed.
End DerivRules.

Lemma D_const (c x : R) : derivable_pt_lim (fun _ => c) x 0.
Proof. exact (derivable_pt_lim_const c x). Qed.

Lemma D_id (x : R) : derivable_pt_lim (fun y => y) x 1.
Proof. exact (derivable_pt_lim_id x). Qed.

Lemma D_value (f : R -> R) (x l l' : R) :
  derivable_pt_lim f x l' -> l' = l -> derivable_pt_lim f x l.
Proof. intros H <-. exact H. Qed.

Lemma D_inv (f : R -> R) (x l1 : R) :
  derivable_pt_lim f x l1 -> f x <> 0 ->
  derivable_pt_lim (fun y => / f y) x (- l1 / Rsqr (f x)).
Proof.
  intros Hf Hx.
  pose proof (derivable_pt_lim_div (fun _ => 1) f x 0 l1 (derivable_pt_lim_const 1 x) Hf Hx) as H.
  apply (derivable_pt_lim_ext _ (fun y => / f y)) in H.
  - eapply D_value; [exact H |]. unfold Rsqr. field. exact Hx.
  - intros z. unfold div_fct. cbv beta. unfold Rdiv. ring.
Qed.

Ltac deriv_rules :=
  repeat first
    [ apply D_const | apply D_id
    | apply D_ndtr | apply D_exp | apply D_pow | apply D_ln | apply D_inv
    | apply D_plus | apply D_minus | apply D_mult | apply D_opp ].

(** [deriv] computes the derivative of an expression and leaves the equation
    between the computed value and the stated one. *)
Ltac deriv := eapply D_value; [unfold Rdiv; deriv_rules | cbv beta].

(** ** Part X.  Numerical bounds *)

(** *** The exponential: alternating Taylor bounds of [exp (- u)], [0 <= u] *)

Lemma exp_neg_lower_1 (u : R) : 1 - u <= exp (- u).
Proof. pose proof (exp_ineq1_le (- u)). lra. Qed.

Lemma exp_neg_upper_2 (u : R) : 0 <= u -> exp (- u) <= 1 - u + u ^ 2 / 2.
Proof.
  intros Hu.
  pose proof (deriv_nonneg_le (fun y => 1 - y + y ^ 2 / 2 - exp (- y))
                (fun y => exp (- y) - (1 - y)) 0 u) as H.
  simpl in H. rewrite Ropp_0, exp_0 in H.
  assert (0 + 0 * (0 * 1) / 2 - 1 + 1 <= 1 - u + u * (u * 1) / 2 - exp (- u)); [| lra].
  replace (0 + 0 * (0 * 1) / 2 - 1 + 1) with (1 - 0 + 0 * (0 * 1) / 2 - 1) by lra.
  apply H; [| exact Hu |].
  - intros c _. deriv. simpl. field.
  - intros c _. pose proof (exp_neg_lower_1 c). lra.
Qed.

Lemma exp_neg_lower_3 (u : R) : 0 <= u -> 1 - u + u ^ 2 / 2 - u ^ 3 / 6 <= exp (- u).
Proof.
  intros Hu.
  pose proof (deriv_nonneg_le (fun y => exp (- y) - (1 - y + y ^ 2 / 2 - y ^ 3 / 6))
                (fun y => (1 - y + y ^ 2 / 2) - exp (- y)) 0 u) as H.
  cbv beta in H. rewrite Ropp_0, exp_0 in H.
  assert (1 - (1 - 0 + 0 ^ 2 / 2 - 0 ^ 3 / 6) <= exp (- u) - (1 - u + u ^ 2 / 2 - u ^ 3 / 6)).
  { apply H; [| exact Hu |].
    - intros c _. deriv. simpl. field.
    - intros c Hc. pose proof (exp_neg_upper_2 c ltac:(lra)). lra. }
  lra.
Qed.

Lemma exp_neg_upper_4 (u : R) :
  0 <= u -> exp (- u) <= 1 - u + u ^ 2 / 2 - u ^ 3 / 6 + u ^ 4 / 24.
Proof.
  intros Hu.
  pose proof (deriv_nonneg_le
                (fun y => (1 - y + y ^ 2 / 2 - y ^ 3 / 6 + y ^ 4 / 24) - exp (- y))
                (fun y => exp (- y) - (1 - y + y ^ 2 / 2 - y ^ 3 / 6)) 0 u) as H.
  cbv beta in H. rewrite Ropp_0, exp_0 in H.
  assert (1 - 0 + 0 ^ 2 / 2 - 0 ^ 3 / 6 + 0 ^ 4 / 24 - 1
          <= 1 - u + u ^ 2 / 2 - u ^ 3 / 6 + u ^ 4 / 24 - exp (- u)).
  { apply H; [| exact Hu |].
    - intros c _. deriv. simpl. field.
    - intros c Hc. pose proof (exp_neg_lower_3 c ltac:(lra)). lra. }
  lra.
Qed.

(** *** [ndtr]: alternating polynomial bounds, [0 <= x] *)

Lemma norm_pdf_alt (x : R) : norm_pdf x = / sqrt (2 * PI) * exp (- (x ^ 2 / 2)).
Proof. unfold norm_pdf. pose proof sqrt_2PI_pos. replace (- (x * x) / 2) with (- (x ^ 2 / 2)) by field. field. lra. Qed.

Section NdtrBounds.
Let c := / sqrt (2 * PI).

Lemma inv_sqrt_2PI_pos : 0 < c.
Proof. apply Rinv_0_lt_compat, sqrt_2PI_pos. Qed.

Variable x : R.
Hypothesis Hx : 0 <= x.

Lemma ndtr_upper_1 : ndtr x <= 1 / 2 + c * x.
Proof.
  pose proof inv_sqrt_2PI_pos as Hc.
  pose proof (deriv_nonneg_le (fun y => 1 / 2 + c * y - ndtr y)
                (fun y => c * (1 - exp (- (y ^ 2 / 2)))) 0 x) as H.
  cbv beta in H. rewrite ndtr_0 in H.
  assert (1 / 2 + c * 0 - 1 / 2 <= 1 / 2 + c * x - ndtr x); [| lra].
  apply H; [| exact Hx |].
  - intros y _. deriv. rewrite norm_pdf_alt. fold c. ring.
  - intros y Hy. apply Rmult_le_pos; [lra |].
    assert (exp (- (y ^ 2 / 2)) <= exp 0); [| rewrite exp_0 in *; lra].
    destruct (Req_dec y 0) as [-> | Hn]; [right; f_equal; field | left; apply exp_increasing; nra].
Qed.

Lemma ndtr_lower_3 : 1 / 2 + c * (x - x ^ 3 / 6) <= ndtr x.
Proof.
  pose proof inv_sqrt_2PI_pos as Hc.
  pose proof (deriv_nonneg_le (fun y => ndtr y - (1 / 2 + c * (y - y ^ 3 / 6)))
                (fun y => c * (exp (- (y ^ 2 / 2)) - (1 - y ^ 2 / 2))) 0 x) as H.
  cbv beta in H. rewrite ndtr_0 in H.
  assert (1 / 2 - (1 / 2 + c * (0 - 0 ^ 3 / 6)) <= ndtr x - (1 / 2 + c * (x - x ^ 3 / 6))).
  { apply H; [| exact Hx |].
    - intros y _. deriv. rewrite norm_pdf_alt. fold c. simpl. field.
    - intros y Hy. apply Rmult_le_pos; [lra |].
      pose proof (exp_neg_lower_1 (y ^ 2 / 2)). lra. }
  lra.
Qed.

Lemma ndtr_upper_5 : ndtr x <= 1 / 2 + c * (x - x ^ 3 / 6 + x ^ 5 / 40).
Proof.
  pose proof inv_sqrt_2PI_pos as Hc.
  pose proof (deriv_nonneg_le (fun y => 1 / 2 + c * (y - y ^ 3 / 6 + y ^ 5 / 40) - ndtr y)
                (fun y => c * ((1 - y ^ 2 / 2 + (y ^ 2 / 2) ^ 2 / 2) - exp (- (y ^ 2 / 2))))
                0 x) as H.
  cbv beta in H. rewrite ndtr_0 in H.
  assert (1 / 2 + c * (0 - 0 ^ 3 / 6 + 0 ^ 5 / 40) - 1 / 2
          <= 1 / 2 + c * (x - x ^ 3 / 6 + x ^ 5 / 40) - ndtr x).
  { apply H; [| exact Hx |].
    - intros y _. deriv. rewrite norm_pdf_alt. fold c. simpl. field.
    - intros y Hy. apply Rmult_le_pos; [lra |].
      pose proof (exp_neg_upper_2 (y ^ 2 / 2) ltac:(nra)). lra. }
  lra.
Qed.

Lemma ndtr_lower_7 : 1 / 2 + c * (x - x ^ 3 / 6 + x ^ 5 / 40 - x ^ 7 / 336) <= ndtr x.
Proof.
  pose proof inv_sqrt_2PI_pos as Hc.
  pose proof (deriv_nonneg_le
                (fun y => ndtr y - (1 / 2 + c * (y - y ^ 3 / 6 + y ^ 5 / 40 - y ^ 7 / 336)))
                (fun y => c * (exp (- (y ^ 2 / 2))
                               - (1 - y ^ 2 / 2 + (y ^ 2 / 2) ^ 2 / 2 - (y ^ 2 / 2) ^ 3 / 6)))
                0 x) as H.
  cbv beta in H. rewrite ndtr_0 in H.
  assert (1 / 2 - (1 / 2 + c * (0 - 0 ^ 3 / 6 + 0 ^ 5 / 40 - 0 ^ 7 / 336))
          <= ndtr x - (1 / 2 + c * (x - x ^ 3 / 6 + x ^ 5 / 40 - x ^ 7 / 336))).
  { apply H; [| exact Hx |].
    - intros y _. deriv. rewrite norm_pdf_alt. fold c. simpl. field.
    - intros y Hy. apply Rmult_le_pos; [lra |].
      pose proof (exp_neg_lower_3 (y ^ 2 / 2) ltac:(nra)). lra. }
  lra.
Qed.
End NdtrBounds.

(** *** Pi and [sqrt (2 * PI)] *)

Lemma PI_lower : 3.14155 < PI.
Proof.
  pose proof (PI_2_3_7_ineq 1) as [H _].
  unfold sum_f_R0, tg_alt, PI_2_3_7_tg, Ratan_seq in H. simpl in H. lra.
Qed.

Lemma PI_upper : PI < 3.1416.
Proof.
  pose proof (PI_2_3_7_ineq 2) as [_ H].
  unfold sum_f_R0, tg_alt, PI_2_3_7_tg, Ratan_seq in H. simpl in H. lra.
Qed.

Lemma sqrt_2PI_lower : 2.5066 < sqrt (2 * PI).
Proof.
  pose proof PI_lower as Hpi. pose proof sqrt_2PI_pos as Hs.
  pose proof (sqrt_sqrt (2 * PI) ltac:(lra)) as Hq.
  destruct (Rlt_le_dec 2.5066 (sqrt (2 * PI))) as [H | H]; [exact H | exfalso].
  assert (sqrt (2 * PI) * sqrt (2 * PI) <= 2.5066 * 2.5066) by (apply Rmult_le_compat; lra).
  lra.
Qed.

Lemma sqrt_2PI_upper : sqrt (2 * PI) < 2.5067.
Proof.
  pose proof PI_upper as Hpi. pose proof PI_RGT_0 as Hp. pose proof sqrt_2PI_pos as Hs.
  pose proof (sqrt_sqrt (2 * PI) ltac:(lra)) as Hq.
  destruct (Rlt_le_dec (sqrt (2 * PI)) 2.5067) as [H | H]; [exact H | exfalso].
  assert (2.5067 * 2.5067 <= sqrt (2 * PI) * sqrt (2 * PI)) by (apply Rmult_le_compat; lra).
  lra.
Qed.

(** *** The normal distribution function at the points the examples need *)

Lemma inv_sqrt_2PI_bounds : 0.39893 < / sqrt (2 * PI) < 0.39895.
Proof.
  pose proof sqrt_2PI_lower as Hl. pose proof sqrt_2PI_upper as Hu.
  pose proof sqrt_2PI_pos as Hs. split.
  - apply Rlt_trans with (/ 2.5067); [lra |]. apply Rinv_lt_contravar; [nra | exact Hu].
  - apply Rlt_trans with (/ 2.5066); [| lra]. apply Rinv_lt_contravar; [nra | exact Hl].
Qed.

Lemma ndtr_bounds_005 : 0.51993 < ndtr 0.05 < 0.51994.
Proof.
  pose proof inv_sqrt_2PI_bounds as Hc.
  pose proof (ndtr_lower_7 0.05 ltac:(lra)). pose proof (ndtr_upper_5 0.05 ltac:(lra)). lra.
Qed.

Lemma ndtr_bounds_015 : 0.55961 < ndtr 0.15 < 0.55962.
Proof.
  pose proof inv_sqrt_2PI_bounds as Hc.
  pose proof (ndtr_lower_7 0.15 ltac:(lra)). pose proof (ndtr_upper_5 0.15 ltac:(lra)). lra.
Qed.

Lemma ndtr_bounds_025 : 0.59870 < ndtr 0.25 < 0.59871.
Proof.
  pose proof inv_sqrt_2PI_bounds as Hc.
  pose proof (ndtr_lower_7 0.25 ltac:(lra)). pose proof (ndtr_upper_5 0.25 ltac:(lra)). lra.
Qed.

Lemma ndtr_bounds_035 : 0.63682 < ndtr 0.35 < 0.63684.
Proof.
  pose proof inv_sqrt_2PI_bounds as Hc.
  pose proof (ndtr_lower_7 0.35 ltac:(lra)). pose proof (ndtr_upper_5 0.35 ltac:(lra)). lra.
Qed.

Lemma exp_bounds_005 : 0.95122 < exp (- (0.05)) < 0.95123.
Proof.
  pose proof (exp_neg_lower_3 0.05 ltac:(lra)). pose proof (exp_neg_upper_4 0.05 ltac:(lra)). lra.
Qed.

Lemma exp_bounds_002 : 0.98019 < exp (- (0.02)) < 0.98020.
Proof.
  pose proof (exp_neg_lower_3 0.02 ltac:(lra)). pose proof (exp_neg_upper_4 0.02 ltac:(lra)). lra.
Qed.

(** *** The running example: S = K = 100, T = 1, r = 0.05, sigma = 0.2 *)

Lemma d1_code_atm (K r sigma : R) :
  0 < K -> sigma <> 0 -> d1_code K K 1 r sigma = (r + 0.5 * sigma ^ 2) / sigma.
Proof.
  intros HK Hs. unfold d1_code.
  replace (K / K) with 1 by (field; lra). rewrite ln_1, sqrt_1. field. exact Hs.
Qed.

Lemma d2_code_atm (K r sigma : R) :
  0 < K -> sigma <> 0 -> d2_code K K 1 r sigma = (r - 0.5 * sigma ^ 2) / sigma.
Proof.
  intros HK Hs. unfold d2_code.
  replace (K / K) with 1 by (field; lra). rewrite ln_1, sqrt_1. field. exact Hs.
Qed.

Lemma put_div_value_example (q : R) :
  put_div_value 100 100 1 0.05 0.2 q
  = 100 * exp (- (0.05)) * (1 - ndtr 0.15) - 100 * exp (- q) * (1 - ndtr 0.35).
Proof.
  unfold put_div_value.
  rewrite d1_code_atm, d2_code_atm by lra.
  replace ((0.05 + 0.5 * 0.2 ^ 2) / 0.2) with 0.35 by lra.
  replace ((0.05 - 0.5 * 0.2 ^ 2) / 0.2) with 0.15 by lra.
  rewrite !ndtr_opp. rewrite !Rmult_1_r. reflexivity.
Qed.

Lemma put_value_example :
  put_value 100 100 1 0.05 0.2
  = 100 * exp (- (0.05)) * (1 - ndtr 0.15) - 100 * (1 - ndtr 0.35).
Proof.
  unfold put_value.
  rewrite d1_code_atm, d2_code_atm by lra.
  replace ((0.05 + 0.5 * 0.2 ^ 2) / 0.2) with 0.35 by lra.
  replace ((0.05 - 0.5 * 0.2 ^ 2) / 0.2) with 0.15 by lra.
  rewrite !ndtr_opp. rewrite !Rmult_1_r. reflexivity.
Qed.

Lemma put_price_spec_example :
  put_price_spec 100 100 1 0.05 0.2 0.02
  = 100 * exp (- (0.05)) * (1 - ndtr 0.05) - 100 * exp (- (0.02)) * (1 - ndtr 0.25).
Proof.
  unfold put_price_spec, d2_spec, d1_spec.
  replace (100 / 100) with 1 by lra. rewrite ln_1, sqrt_1.
  replace ((0 + (0.05 - 0.02 + 0.5 * 0.2 ^ 2) * 1) / (0.2 * 1)) with 0.25 by lra.
  replace (0.25 - 0.2 * 1) with 0.05 by lra.
  rewrite !ndtr_opp, !Rmult_1_r. reflexivity.
Qed.

Lemma put_value_discounted_spot_example :
  put_value (100 * exp (- (0.02) * 1)) 100 1 0.05 0.2
  = 100 * exp (- (0.05)) * (1 - ndtr 0.05) - 100 * exp (- (0.02)) * (1 - ndtr 0.25).
Proof.
  unfold put_value, d1_code, d2_code.
  replace (100 * exp (- (0.02) * 1) / 100) with (exp (- (0.02))) by (rewrite Rmult_1_r; field).
  rewrite ln_exp, sqrt_1.
  replace ((- (0.02) + (0.05 + 0.5 * 0.2 ^ 2) * 1) / (0.2 * 1)) with 0.25 by lra.
  replace ((- (0.02) + (0.05 - 0.5 * 0.2 ^ 2) * 1) / (0.2 * 1)) with 0.05 by lra.
  rewrite !ndtr_opp, !Rmult_1_r. reflexivity.
Qed.

(** Products of two enclosed positive numbers. *)
Lemma mult_enclosure (a b al ah bl bh : R) :
  0 < al -> 0 < bl -> al < a < ah -> bl < b < bh -> al * bl < a * b < ah * bh.
Proof.
  intros Hal Hbl [Ha1 Ha2] [Hb1 Hb2]. split.
  - apply Rmult_gt_0_lt_compat; lra.
  - apply Rmult_gt_0_lt_compat; lra.
Qed.

Lemma example_code_value : 6.28 < put_div_value 100 100 1 0.05 0.2 0.02 < 6.30.
Proof.
  rewrite put_div_value_example.
  pose proof ndtr_bounds_015 as N15. pose proof ndtr_bounds_035 as N35.
  pose proof (mult_enclosure (exp (- (0.05))) (1 - ndtr 0.15) 0.95122 0.95123 0.44038 0.44039
                ltac:(lra) ltac:(lra) exp_bounds_005 ltac:(lra)) as H1.
  pose proof (mult_enclosure (exp (- (0.02))) (1 - ndtr 0.35) 0.98019 0.98020 0.36316 0.36318
                ltac:(lra) ltac:(lra) exp_bounds_002 ltac:(lra)) as H2.
  lra.
Qed.

Lemma example_spec_value : 6.32 < put_price_spec 100 100 1 0.05 0.2 0.02 < 6.34.
Proof.
  rewrite put_price_spec_example.
  pose proof ndtr_bounds_005 as N05. pose proof ndtr_bounds_025 as N25.
  pose proof (mult_enclosure (exp (- (0.05))) (1 - ndtr 0.05) 0.95122 0.95123 0.48006 0.48007
                ltac:(lra) ltac:(lra) exp_bounds_005 ltac:(lra)) as H1.
  pose proof (mult_enclosure (exp (- (0.02))) (1 - ndtr 0.25) 0.98019 0.98020 0.40129 0.40130
                ltac:(lra) ltac:(lra) exp_bounds_002 ltac:(lra)) as H2.
  lra.
Qed.

Lemma example_put_value : 5.57 < put_value 100 100 1 0.05 0.2 < 5.58.
Proof.
  rewrite put_value_example.
  pose proof ndtr_bounds_015 as N15. pose proof ndtr_bounds_035 as N35.
  pose proof (mult_enclosure (exp (- (0.05))) (1 - ndtr 0.15) 0.95122 0.95123 0.44038 0.44039
                ltac:(lra) ltac:(lra) exp_bounds_005 ltac:(lra)) as H1.
  lra.
Qed.

Lemma example_negative_value : put_div_value 100 100 1 0.05 0.2 (-0.2) < -1.
Proof.
  rewrite put_div_value_example.
  pose proof ndtr_bounds_015 as N15. pose proof ndtr_bounds_035 as N35.
  pose proof (mult_enclosure (exp (- (0.05))) (1 - ndtr 0.15) 0.95122 0.95123 0.44038 0.44039
                ltac:(lra) ltac:(lra) exp_bounds_005 ltac:(lra)) as H1.
  pose proof (exp_ineq1_le (- -0.2)) as He.
  assert (1.2 * 0.36316 <= exp (- -0.2) * (1 - ndtr 0.35)) by (apply Rmult_le_compat; lra).
  lra.
Qed.

(** ** Part XI.  The real-valued formula as a function of the strike *)

Section StrikeDerivative.
Variables S T r sigma : R.
Hypothesis HS : 0 < S.
Hypothesis HT : 0 < T.
Hypothesis Hsigma : 0 < sigma.

(** [K e^(-rT) pdf(d2) = S pdf(d1)], the identity behind every Black-Scholes greek. *)
Lemma pdf_identity (K : R) :
  0 < K ->
  K * exp (- r * T) * norm_pdf (- d2_code S K T r sigma)
  = S * norm_pdf (- d1_code S K T r sigma).
Proof.
  intros HK. rewrite !norm_pdf_even. unfold norm_pdf, d1_code, d2_code.
  pose proof sqrt_2PI_pos as Hp.
  assert (Hq : 0 < S / K) by (apply Rdiv_lt_0_compat; assumption).
  set (L := ln (S / K)).
  assert (HK' : K = S * exp (- L)).
  { unfold L. rewrite exp_Ropp, exp_ln by exact Hq. field. lra. }
  assert (Hs : 0 < sqrt T) by (apply sqrt_lt_R0; exact HT).
  pose proof (sqrt_sqrt T ltac:(lra)) as Hss.
  set (s := sqrt T) in *.
  rewrite HK' at 1.
  replace (S * exp (- L) * exp (- r * T) *
           (exp (- ((L + (r - 0.5 * sigma ^ 2) * T) / (sigma * s) *
                    ((L + (r - 0.5 * sigma ^ 2) * T) / (sigma * s))) / 2) / sqrt (2 * PI)))
    with (S * (exp (- L) * exp (- r * T) *
               exp (- ((L + (r - 0.5 * sigma ^ 2) * T) / (sigma * s) *
                       ((L + (r - 0.5 * sigma ^ 2) * T) / (sigma * s))) / 2)) / sqrt (2 * PI))
    by (field; lra).
  rewrite <- !exp_plus.
  replace (S * (exp (- ((L + (r + 0.5 * sigma ^ 2) * T) / (sigma * s) *
                        ((L + (r + 0.5 * sigma ^ 2) * T) / (sigma * s))) / 2) / sqrt (2 * PI)))
    with (S * exp (- ((L + (r + 0.5 * sigma ^ 2) * T) / (sigma * s) *
                      ((L + (r + 0.5 * sigma ^ 2) * T) / (sigma * s))) / 2) / sqrt (2 * PI))
    by (field; lra).
  do 3 f_equal. rewrite <- Hss. replace 0.5 with (/ 2) by lra. field. lra.
Qed.

Lemma put_value_derive_strike (K : R) :
  0 < K ->
  derivable_pt_lim (fun k => put_value S k T r sigma) K
    (exp (- r * T) * ndtr (- d2_code S K T r sigma)).
Proof.
  intros HK.
  assert (Hq : 0 < S * / K) by (apply Rmult_lt_0_compat; [| apply Rinv_0_lt_compat]; assumption).
  assert (Hs : 0 < sqrt T) by (apply sqrt_lt_R0; exact HT).
  pose proof (pdf_identity K HK) as Hid.
  unfold put_value, d1_code, d2_code in *.
  deriv; try lra.
  unfold Rdiv in Hid |- *.
  set (p2 := norm_pdf (- ((ln (S * / K) + (r - 0.5 * sigma ^ 2) * T) * / (sigma * sqrt T)))) in *.
  set (p1 := norm_pdf (- ((ln (S * / K) + (r + 0.5 * sigma ^ 2) * T) * / (sigma * sqrt T)))) in *.
  set (n2 := ndtr (- ((ln (S * / K) + (r - 0.5 * sigma ^ 2) * T) * / (sigma * sqrt T)))).
  set (n1 := ndtr (- ((ln (S * / K) + (r + 0.5 * sigma ^ 2) * T) * / (sigma * sqrt T)))).
  set (E := exp (- r * T)) in *.
  transitivity (E * n2 + (K * E * p2 - S * p1) * / (K * (sigma * sqrt T))).
  - unfold Rsqr. field. lra.
  - rewrite Hid. field. lra.
Qed.

Lemma put_value_increasing_strike (K1 K2 : R) :
  0 < K1 -> K1 < K2 -> put_value S K1 T r sigma < put_value S K2 T r sigma.
Proof.
  intros H1 H12.
  apply (deriv_pos_lt (fun k => put_value S k T r sigma)
           (fun k => exp (- r * T) * ndtr (- d2_code S k T r sigma))); [| exact H12 |].
  - intros c Hc. apply put_value_derive_strike. lra.
  - intros c Hc. apply Rmult_lt_0_compat; [apply exp_pos | apply ndtr_pos].
Qed.
End StrikeDerivative.

(** ** Part XII.  The sign of the real-valued formula *)

Section PricePositive.
Variables S T r sigma : R.
Hypothesis HS : 0 < S.
Hypothesis HT : 0 < T.
Hypothesis Hsigma : 0 < sigma.

(** Deep in the money for the call, [N(-d1)] is as small as wanted. *)
Lemma small_strike (K eps : R) :
  0 < K -> 0 < eps ->
  exists K', 0 < K' < K /\ ndtr (- d1_code S K' T r sigma) < eps.
Proof.
  intros HK Heps.
  destruct (ndtr_limit_0 eps Heps) as [X [HX HN]].
  pose proof (vol_pos T sigma HT Hsigma) as Hv.
  assert (Hs0 : 0 < sqrt T) by (apply sqrt_lt_R0, HT).
  set (a := (r + 0.5 * sigma ^ 2) * T).
  set (b := S * exp (- (X * (sigma * sqrt T) - a))).
  assert (Hb : 0 < b) by (apply Rmult_lt_0_compat; [exact HS | apply exp_pos]).
  set (K' := Rmin (K / 2) b).
  assert (HK' : 0 < K') by (apply Rmin_pos; lra).
  exists K'. split; [split; [exact HK' |] |].
  - unfold K'. pose proof (Rmin_l (K / 2) b). lra.
  - apply HN. apply Ropp_le_contravar. unfold d1_code. fold a.
    apply Rmult_le_reg_r with (sigma * sqrt T); [exact Hv |].
    replace ((ln (S / K') + a) / (sigma * sqrt T) * (sigma * sqrt T)) with (ln (S / K') + a)
      by (field; split; lra).
    assert (Hle : X * (sigma * sqrt T) - a <= ln (S / K')); [| lra].
    rewrite <- (ln_exp (X * (sigma * sqrt T) - a)).
    assert (Hq : exp (X * (sigma * sqrt T) - a) <= S / K').
    { apply Rmult_le_reg_r with K'; [exact HK' |].
      replace (S / K' * K') with S by (field; lra).
      apply Rle_trans with (exp (X * (sigma * sqrt T) - a) * b).
      - apply Rmult_le_compat_l; [left; apply exp_pos | apply Rmin_r].
      - right. unfold b. rewrite exp_Ropp. field. apply Rgt_not_eq, exp_pos. }
    destruct Hq as [Hq | Hq].
    + left. apply ln_increasing; [apply exp_pos | exact Hq].
    + right. rewrite Hq. reflexivity.
Qed.

Lemma put_value_nonneg (K : R) : 0 < K -> 0 <= put_value S K T r sigma.
Proof.
  intros HK.
  destruct (Rle_lt_dec 0 (put_value S K T r sigma)) as [H | H]; [exact H | exfalso].
  set (eps := - put_value S K T r sigma / S).
  assert (Heps : 0 < eps) by (apply Rdiv_lt_0_compat; lra).
  destruct (small_strike K eps HK Heps) as [K' [[HK'1 HK'2] Hn]].
  pose proof (put_value_increasing_strike S T r sigma HS HT Hsigma K' K HK'1 HK'2) as Hinc.
  assert (Hlow : - (S * eps) < put_value S K' T r sigma).
  { unfold put_value.
    assert (0 < K' * exp (- r * T) * ndtr (- d2_code S K' T r sigma)).
    { apply Rmult_lt_0_compat; [apply Rmult_lt_0_compat; [exact HK'1 | apply exp_pos] |].
      apply ndtr_pos. }
    assert (S * ndtr (- d1_code S K' T r sigma) < S * eps)
      by (apply Rmult_lt_compat_l; assumption).
    lra. }
  replace (S * eps) with (- put_value S K T r sigma) in Hlow by (unfold eps; field; lra).
  lra.
Qed.

(** The price [put_option_price] returns is positive. *)
Lemma put_value_pos (K : R) : 0 < K -> 0 < put_value S K T r sigma.
Proof.
  intros HK.
  pose proof (put_value_nonneg (K / 2) ltac:(lra)) as H0.
  pose proof (put_value_increasing_strike S T r sigma HS HT Hsigma (K / 2) K
                ltac:(lra) ltac:(lra)) as H1.
  lra.
Qed.

(** So is the price [put_option_price_div] returns when the dividend yield is
    not negative. *)
Lemma put_div_value_pos (K q : R) : 0 < K -> 0 <= q -> 0 < put_div_value S K T r sigma q.
Proof.
  intros HK Hq. pose proof (put_value_pos K HK) as Hp.
  unfold put_div_value, put_value in *.
  assert (He : exp (- q * T) <= 1).
  { rewrite <- exp_0. destruct Hq as [Hq | <-].
    - left. apply exp_increasing. nra.
    - right. f_equal. ring. }
  pose proof (ndtr_pos (- d1_code S K T r sigma)) as Hn.
  assert (S * exp (- q * T) * ndtr (- d1_code S K T r sigma)
          <= S * 1 * ndtr (- d1_code S K T r sigma)).
  { apply Rmult_le_compat_r; [lra |]. apply Rmult_le_compat_l; lra. }
  lra.
Qed.
End PricePositive.

(** ** Part XIII.  The real-valued formula as the time to maturity tends to 0 *)

Lemma sqrt_small (a T : R) : 0 < a -> 0 < T < a * a -> sqrt T < a.
Proof.
  intros Ha [HT1 HT2]. rewrite <- (sqrt_square a) by lra.
  apply sqrt_lt_1_alt. lra.
Qed.

Lemma Rabs_mult_le (m T : R) : 0 < T -> - (Rabs m * T) <= m * T <= Rabs m * T.
Proof.
  intros HT. pose proof (Rle_abs m). pose proof (Rle_abs (- m)) as H1.
  rewrite Rabs_Ropp in H1. split; nra.
Qed.

Lemma limit_discount (r : R) : limit1_in (fun T => exp (- r * T)) positive_time 1 0.
Proof.
  assert (Hc : continuity_pt (fun T => exp (- r * T)) 0) by reg.
  intros eps Heps. destruct (Hc eps Heps) as [alp [Halp H]].
  exists alp. split; [exact Halp |]. intros T [HT Hd].
  replace 1 with (exp (- r * 0)) by (rewrite Rmult_0_r; apply exp_0).
  apply H. split; [| exact Hd]. split; [exact I |]. unfold positive_time in HT. lra.
Qed.

Section Expiry.
Variables (L m sigma : R).
Hypothesis Hsigma : 0 < sigma.

Let d (T : R) : R := (L + m * T) / (sigma * sqrt T).

Lemma vol_sqrt_pos (T : R) : 0 < T -> 0 < sigma * sqrt T.
Proof. intros HT. apply Rmult_lt_0_compat; [exact Hsigma | apply sqrt_lt_R0, HT]. Qed.

(** Far from the money, [d] leaves every bounded set as [T] tends to 0. *)
Lemma d_unbounded (X : R) :
  0 < X -> L <> 0 ->
  exists delta, 0 < delta /\
    forall T, 0 < T < delta ->
      X * (sigma * sqrt T) <= Rabs L / 2 /\ - (Rabs L / 2) <= m * T <= Rabs L / 2.
Proof.
  intros HX HL.
  assert (HaL : 0 < Rabs L) by (apply Rabs_pos_lt, HL).
  set (a := Rabs L / (2 * X * sigma)).
  assert (Ha : 0 < a) by (apply Rdiv_lt_0_compat; [lra | apply Rmult_lt_0_compat; lra]).
  set (b := Rabs L / (2 * (Rabs m + 1))).
  pose proof (Rabs_pos m) as Hm.
  assert (Hb : 0 < b) by (apply Rdiv_lt_0_compat; lra).
  exists (Rmin (a * a) b). split; [apply Rmin_pos; [apply Rmult_lt_0_compat |]; lra |].
  intros T [HT1 HT2].
  assert (HTa : T < a * a) by (eapply Rlt_le_trans; [exact HT2 | apply Rmin_l]).
  assert (HTb : T < b) by (eapply Rlt_le_trans; [exact HT2 | apply Rmin_r]).
  pose proof (sqrt_small a T Ha (conj HT1 HTa)) as Hs.
  split.
  - apply Rle_trans with (X * (sigma * a)).
    + apply Rmult_le_compat_l; [lra |]. apply Rmult_le_compat_l; lra.
    + right. unfold a. field. lra.
  - pose proof (Rabs_mult_le m T HT1) as [H1 H2].
    assert (Rabs m * T <= Rabs L / 2).
    { apply Rle_trans with ((Rabs m + 1) * b).
      - apply Rmult_le_compat; lra.
      - right. unfold b. field. lra. }
    lra.
Qed.

Lemma limit_ndtr_in_the_money :
  L < 0 -> limit1_in (fun T => ndtr (- d T)) positive_time 1 0.
Proof.
  intros HL eps Heps.
  destruct (ndtr_limit_1 eps Heps) as [X [HX HN]].
  destruct (d_unbounded X HX ltac:(lra)) as [delta [Hdelta H]].
  exists delta. split; [exact Hdelta |]. intros T [HT Hd].
  unfold positive_time in HT. simpl in Hd. unfold Rdist in Hd.
  rewrite Rminus_0_r, Rabs_pos_eq in Hd by lra.
  destruct (H T (conj HT Hd)) as [H1 H2].
  pose proof (vol_sqrt_pos T HT) as Hv.
  assert (Hs0 : 0 < sqrt T) by (apply sqrt_lt_R0, HT).
  rewrite (Rabs_left L) in H1, H2 by lra.
  assert (HdX : X <= - d T).
  { apply Rmult_le_reg_r with (sigma * sqrt T); [exact Hv |].
    replace (- d T * (sigma * sqrt T)) with (- (L + m * T)) by (unfold d; field; split; lra).
    lra. }
  pose proof (HN _ HdX). pose proof (ndtr_lt_1 (- d T)).
  simpl. unfold Rdist. apply Rabs_def1; lra.
Qed.

Lemma limit_ndtr_out_of_the_money :
  0 < L -> limit1_in (fun T => ndtr (- d T)) positive_time 0 0.
Proof.
  intros HL eps Heps.
  destruct (ndtr_limit_0 eps Heps) as [X [HX HN]].
  destruct (d_unbounded X HX ltac:(lra)) as [delta [Hdelta H]].
  exists delta. split; [exact Hdelta |]. intros T [HT Hd].
  unfold positive_time in HT. simpl in Hd. unfold Rdist in Hd.
  rewrite Rminus_0_r, Rabs_pos_eq in Hd by lra.
  destruct (H T (conj HT Hd)) as [H1 H2].
  pose proof (vol_sqrt_pos T HT) as Hv.
  assert (Hs0 : 0 < sqrt T) by (apply sqrt_lt_R0, HT).
  rewrite (Rabs_pos_eq L) in H1, H2 by lra.
  assert (HdX : - d T <= - X).
  { apply Ropp_le_contravar.
    apply Rmult_le_reg_r with (sigma * sqrt T); [exact Hv |].
    replace (d T * (sigma * sqrt T)) with (L + m * T) by (unfold d; field; split; lra).
    lra. }
  pose proof (HN _ HdX). pose proof (ndtr_pos (- d T)).
  simpl. unfold Rdist. apply Rabs_def1; lra.
Qed.

Lemma limit_ndtr_at_the_money :
  L = 0 -> limit1_in (fun T => ndtr (- d T)) positive_time (1 / 2) 0.
Proof.
  intros HL eps Heps.
  pose proof (Rabs_pos m) as Hm.
  set (a := eps * sigma / (Rabs m + 1)).
  assert (Ha : 0 < a) by (apply Rdiv_lt_0_compat; [apply Rmult_lt_0_compat |]; lra).
  exists (a * a). split; [apply Rmult_lt_0_compat; lra |]. intros T [HT Hd].
  unfold positive_time in HT. simpl in Hd. unfold Rdist in Hd.
  rewrite Rminus_0_r, Rabs_pos_eq in Hd by lra.
  pose proof (sqrt_small a T Ha (conj HT Hd)) as Hs.
  assert (Hs0 : 0 < sqrt T) by (apply sqrt_lt_R0, HT).
  pose proof (sqrt_sqrt T ltac:(lra)) as Hss.
  simpl. unfold Rdist. rewrite <- ndtr_0.
  eapply Rle_lt_trans; [apply ndtr_lipschitz |].
  rewrite Rminus_0_r, Rabs_Ropp.
  assert (Hd' : d T = m * sqrt T / sigma).
  { unfold d. rewrite HL. rewrite <- Hss at 1. field. lra. }
  rewrite Hd'. unfold Rdiv. rewrite !Rabs_mult.
  rewrite (Rabs_pos_eq (sqrt T)) by lra.
  rewrite (Rabs_pos_eq (/ sigma)) by (left; apply Rinv_0_lt_compat; lra).
  apply Rle_lt_trans with (Rabs m * a * / sigma).
  - apply Rmult_le_compat_r; [left; apply Rinv_0_lt_compat; lra |].
    apply Rmult_le_compat_l; lra.
  - unfold a. replace (Rabs m * (eps * sigma / (Rabs m + 1)) * / sigma)
      with (eps * (Rabs m / (Rabs m + 1))) by (field; lra).
    rewrite <- (Rmult_1_r eps) at 2. apply Rmult_lt_compat_l; [lra |].
    apply Rmult_lt_reg_r with (Rabs m + 1); [lra |].
    replace (Rabs m / (Rabs m + 1) * (Rabs m + 1)) with (Rabs m) by (field; lra). lra.
Qed.
End Expiry.

Section ExpiryLimit.
Variables S K r sigma : R.
Hypothesis HS : 0 < S.
Hypothesis HK : 0 < K.
Hypothesis Hsigma : 0 < sigma.

Lemma limit_put_value_parts (l : R) :
  (forall m, limit1_in (fun T => ndtr (- ((ln (S / K) + m * T) / (sigma * sqrt T))))
               positive_time l 0) ->
  limit1_in (fun T => put_value S K T r sigma) positive_time (K * 1 * l - S * l) 0.
Proof.
  intros Hl. unfold put_value, d1_code, d2_code.
  apply limit_minus.
  - apply limit_mul; [| apply Hl].
    apply limit_mul; [apply (limit_free (fun _ => K) positive_time 0 0) | apply limit_discount].
  - apply limit_mul; [apply (limit_free (fun _ => S) positive_time 0 0) | apply Hl].
Qed.

Lemma limit_put_value :
  limit1_in (fun T => put_value S K T r sigma) positive_time (Rmax (K - S) 0) 0.
Proof.
  destruct (Rtotal_order S K) as [Hlt | [Heq | Hgt]].
  - replace (Rmax (K - S) 0) with (K * 1 * 1 - S * 1) by (rewrite Rmax_left; lra).
    apply limit_put_value_parts. intros m. apply limit_ndtr_in_the_money; [exact Hsigma |].
    rewrite <- ln_1. apply ln_increasing; [apply Rdiv_lt_0_compat; lra |].
    apply Rmult_lt_reg_r with K; [lra |]. replace (S / K * K) with S by (field; lra). lra.
  - replace (Rmax (K - S) 0) with (K * 1 * (1 / 2) - S * (1 / 2)) by (rewrite Rmax_right; lra).
    apply limit_put_value_parts. intros m. apply limit_ndtr_at_the_money; [exact Hsigma |].
    rewrite Heq. replace (K / K) with 1 by (field; lra). apply ln_1.
  - replace (Rmax (K - S) 0) with (K * 1 * 0 - S * 0) by (rewrite Rmax_right; lra).
    apply limit_put_value_parts. intros m. apply limit_ndtr_out_of_the_money; [exact Hsigma |].
    rewrite <- ln_1. apply ln_increasing; [lra |].
    apply Rmult_lt_reg_r with K; [lra |]. replace (S / K * K) with S by (field; lra). lra.
Qed.
End ExpiryLimit.

(** ** Part XIV.  Identities of the real-valued formula

    These concern [put_value], [put_div_value] and [call_value], the
    formulas over the real numbers; together with the strike derivative of
    Part XI and the limit of Part XIII they say what the formula does before
    it is evaluated in doubles. *)

Lemma parity_exact (S K T r sigma q : R) :
  call_value S K T r sigma q - put_div_value S K T r sigma q
  = S * exp (- q * T) - K * exp (- r * T).
Proof.
  unfold call_value, put_div_value. rewrite !ndtr_opp. ring.
Qed.

Lemma put_div_value_no_dividend (S K T r sigma : R) :
  put_div_value S K T r sigma 0 = put_value S K T r sigma.
Proof.
  unfold put_div_value, put_value.
  replace (- 0 * T) with 0 by ring. rewrite exp_0. ring.
Qed.

(** ** Part XV.  The claims *)

(** *** Evaluating floats *)

Ltac float_arith := pose proof max_float_large; lra.

Lemma xfin_zero (s : bool) (v : R) : v = 0 -> xfin s v = xzero s.
Proof. intros ->. unfold xfin. destruct (Req_dec_T 0 0); [reflexivity | contradiction]. Qed.

Lemma xfin_nonzero (s : bool) (v : R) : v <> 0 -> xfin s v = XFin v.
Proof. intros H. unfold xfin. destruct (Req_dec_T v 0); [contradiction | reflexivity]. Qed.

Lemma xsign_nonneg (v : R) : 0 <= v -> xsign (XFin v) = false.
Proof. intros H. simpl. destruct (Rlt_dec v 0); [lra | reflexivity]. Qed.

Lemma py_div_nonzero (x y : R) : y <> 0 -> x <> 0 -> py_div (XFin x) (XFin y) = Ok (XFin (x / y)).
Proof.
  intros Hy Hx. unfold py_div, xdiv. simpl.
  destruct (Req_dec_T y 0); [contradiction |]. rewrite xfin_nonzero; [reflexivity |].
  unfold Rdiv. apply Rmult_integral_contrapositive_currified; [exact Hx | apply Rinv_neq_0_compat, Hy].
Qed.

Lemma py_div_ok (a : xfloat) (y : R) : y <> 0 -> py_div a (XFin y) = Ok (xdiv a (XFin y)).
Proof.
  intros Hy. unfold py_div. simpl. destruct (Req_dec_T y 0); [contradiction | reflexivity].
Qed.

(** The quotient [(ln(S/K) + drift * T) / (sigma * sqrt(T))] at S = K, T = 1,
    sigma = 0 and a zero drift: 0.0 / 0.0, which numpy evaluates to nan. *)
Lemma d_code_nan (drift : xfloat) :
  xval drift = Some 0 ->
  xdiv (xadd (np_log (XFin (100 / 100))) (xmul drift (XFin 1)))
       (xmul (XFin 0) (np_sqrt (XFin 1))) = XNaN.
Proof.
  intros Hd.
  assert (Hlog : np_log (XFin (100 / 100)) = XFin 0).
  { simpl. destruct (Rlt_dec 0 (100 / 100)) as [_ | H]; [| exfalso; lra].
    replace (100 / 100) with 1 by lra. rewrite ln_1. reflexivity. }
  assert (Hden : xmul (XFin 0) (np_sqrt (XFin 1)) = XFin 0).
  { simpl np_sqrt. destruct (Rle_dec 0 1) as [_ | H]; [| exfalso; lra].
    unfold xmul. simpl xval. cbv iota. rewrite xfin_zero by ring.
    rewrite !xsign_nonneg; [reflexivity | apply sqrt_pos | lra]. }
  rewrite Hlog, Hden.
  pose proof (xval_xadd (XFin 0) (xmul drift (XFin 1)) 0 (0 * 1) eq_refl
                (xval_xmul drift (XFin 1) 0 1 Hd eq_refl)) as Hnum.
  destruct (xval_finite _ _ Hnum) as [-> | [-> _]]; unfold xdiv; simpl.
  - destruct (Req_dec_T 0 0) as [_ | H]; [| contradiction].
    destruct (Req_dec_T (0 + 0 * 1) 0) as [_ | H]; [reflexivity | exfalso; lra].
  - destruct (Req_dec_T 0 0) as [_ | H]; [reflexivity | contradiction].
Qed.

Lemma xmul_nan_r (a : xfloat) : xmul a XNaN = XNaN.
Proof. unfold xmul. simpl. destruct (xval a); rewrite orb_true_r; reflexivity. Qed.

Lemma drift_zero_plus :
  xval (xadd (XFin 0) (xmul (XFin 0.5) (xmul (XFin 0) (XFin 0)))) = Some 0.
Proof.
  rewrite (xval_xadd _ _ 0 (0.5 * 0 ^ 2)); [f_equal; lra | reflexivity |].
  apply xval_xmul; [reflexivity | apply xval_sqr].
Qed.

Lemma drift_zero_minus :
  xval (xsub (XFin 0) (xmul (XFin 0.5) (xmul (XFin 0) (XFin 0)))) = Some 0.
Proof.
  rewrite (xval_xsub _ _ 0 (0.5 * 0 ^ 2)); [f_equal; lra | reflexivity |].
  apply xval_xmul; [reflexivity | apply xval_sqr].
Qed.

Lemma put_option_price_sigma_zero : put_option_price 100 100 1 0 0 = Ok XNaN.
Proof.
  unfold put_option_price.
  rewrite py_div_nonzero by lra. rewrite py_sqr_finite by float_arith. cbn [bind].
  rewrite (d_code_nan _ drift_zero_plus), (d_code_nan _ drift_zero_minus).
  cbn [xneg]. unfold norm_cdf. destruct (Rlt_dec 0 1.0) as [_ | H]; [| exfalso; lra].
  rewrite !xmul_nan_r. reflexivity.
Qed.

(** At T = 0 with S < K the quotients d1 and d2 are -inf, and the function
    returns the intrinsic value K - S. *)
Section AtExpiry.
Variables S K r sigma : R.
Hypothesis HS : 0 < S.
Hypothesis HSK : S < K.
Hypothesis Hsigma : 0 < sigma.
Hypothesis Hrange : sigma * sigma <= max_float.

Lemma zero_time_volatility : xmul (XFin sigma) (np_sqrt (XFin 0)) = XFin 0.
Proof.
  simpl np_sqrt. destruct (Rle_dec 0 0) as [_ | H]; [| exfalso; lra].
  unfold xmul. simpl xval. cbv iota. rewrite sqrt_0, xfin_zero by ring.
  rewrite !xsign_nonneg by lra. reflexivity.
Qed.

Lemma d_code_at_expiry (q1 drift : xfloat) (m : R) :
  xval q1 = Some (S / K) -> xval drift = Some m ->
  xdiv (xadd (np_log q1) (xmul drift (XFin 0))) (xmul (XFin sigma) (np_sqrt (XFin 0)))
  = XInf true.
Proof.
  intros Hq Hm. rewrite zero_time_volatility.
  assert (Hln : ln (S / K) < 0).
  { rewrite <- ln_1. apply ln_increasing; [apply Rdiv_lt_0_compat; lra |].
    apply Rmult_lt_reg_r with K; [lra |]. replace (S / K * K) with S by (field; lra). lra. }
  assert (Hpos : 0 < S / K) by (apply Rdiv_lt_0_compat; lra).
  pose proof (xval_xadd _ _ _ _ (xval_np_log q1 (S / K) Hq Hpos)
                (xval_xmul drift (XFin 0) m 0 Hm eq_refl)) as Hnum.
  destruct (xval_finite _ _ Hnum) as [-> | [_ H0]]; [| exfalso; lra].
  unfold xdiv. simpl.
  destruct (Req_dec_T 0 0) as [_ | H]; [| contradiction].
  destruct (Req_dec_T (ln (S / K) + m * 0) 0) as [H | _]; [exfalso; lra |].
  destruct (Rlt_dec (ln (S / K) + m * 0) 0) as [_ | H]; [| exfalso; lra].
  destruct (Rlt_dec 0 0) as [H | _]; [exfalso; lra | reflexivity].
Qed.

Lemma put_option_price_at_expiry : returns (put_option_price S K 0 r sigma) (K - S).
Proof.
  unfold returns, put_option_price.
  destruct (py_div_finite (XFin S) (XFin K) S K eq_refl eq_refl ltac:(lra)) as [c [Hc Hv]].
  rewrite Hc, (py_sqr_finite sigma Hrange). cbn [bind]. eexists. split; [reflexivity |].
  rewrite (d_code_at_expiry c (xadd (XFin r) (xmul (XFin 0.5) (xmul (XFin sigma) (XFin sigma))))
             (r + 0.5 * sigma ^ 2) Hv) by (repeat xval_step).
  rewrite (d_code_at_expiry c (xsub (XFin r) (xmul (XFin 0.5) (xmul (XFin sigma) (XFin sigma))))
             (r - 0.5 * sigma ^ 2) Hv) by (repeat xval_step).
  change (xneg (XInf true)) with (XInf false). unfold norm_cdf.
  destruct (Rlt_dec 0 1.0) as [_ | H]; [| exfalso; lra].
  replace (K - S) with (K * exp (- r * 0) * 1 - S * 1)
    by (rewrite Rmult_0_r, exp_0; ring).
  repeat xval_step.
Qed.
End AtExpiry.

(** With a zero dividend yield the discount factor of the spot is
    [np.exp(-0 * T) = 1.0], and [S * 1.0] is [S]. *)
Lemma np_exp_zero_yield (T : R) : np_exp (xmul (xneg (XFin 0)) (XFin T)) = XFin 1.
Proof.
  assert (Hneg : xneg (XFin 0) = XNegZero).
  { unfold xneg. rewrite xfin_zero by ring. reflexivity. }
  rewrite Hneg. unfold xmul. simpl xval. cbv iota. rewrite xfin_zero by ring.
  destruct (xorb (xsign XNegZero) (xsign (XFin T))); simpl; [reflexivity |].
  rewrite exp_0. reflexivity.
Qed.

Lemma xmul_one (x : R) : xmul (XFin x) (XFin 1) = XFin x.
Proof.
  unfold xmul. simpl xval. cbv iota.
  destruct (Req_dec_T x 0) as [-> | Hx].
  - rewrite xfin_zero by ring. rewrite !xsign_nonneg by lra. reflexivity.
  - rewrite xfin_nonzero by lra. f_equal. ring.
Qed.

(** The two functions run the same computation when q = 0, whatever the
    other arguments are: the same exception, or the same float. *)
Lemma put_option_price_div_zero_yield (S K T r sigma : R) :
  put_option_price_div S K T r sigma 0 = put_option_price S K T r sigma.
Proof.
  unfold put_option_price_div, put_option_price.
  rewrite np_exp_zero_yield, xmul_one. reflexivity.
Qed.

(** The only exceptions of the two functions are Python's own. *)
Lemma put_option_price_outcome (S K T r sigma : R) :
  (exists v, put_option_price S K T r sigma = Ok v) \/
  put_option_price S K T r sigma = Raise ZeroDivisionError \/
  put_option_price S K T r sigma = Raise OverflowError.
Proof.
  unfold put_option_price, py_div, py_sqr.
  destruct (is_zero (XFin K)); cbn [bind]; [right; left; reflexivity |].
  destruct (Rlt_dec max_float (sigma * sigma)); cbn [bind];
    [right; right; reflexivity | left; eexists; reflexivity].
Qed.

Lemma put_option_price_div_outcome (S K T r sigma q : R) :
  (exists v, put_option_price_div S K T r sigma q = Ok v) \/
  put_option_price_div S K T r sigma q = Raise ZeroDivisionError \/
  put_option_price_div S K T r sigma q = Raise OverflowError.
Proof.
  unfold put_option_price_div, py_div, py_sqr.
  destruct (is_zero (XFin K)); cbn [bind]; [right; left; reflexivity |].
  destruct (Rlt_dec max_float (sigma * sigma)); cbn [bind];
    [right; right; reflexivity | left; eexists; reflexivity].
Qed.

(** *** C1: the dividend yield in the drift *)

(** C1 (code defect).  The specification puts the dividend yield into the
    drift of d1 and d2; [put_option_price_div] computes d1 and d2 without it.
    At S = K = 100, T = 1, r = 0.05, sigma = 0.2, q = 0.02 the function
    returns a price below 6.30 while the specification's formula is above
    6.32. *)
Theorem put_option_price_div_misses_dividend_drift :
  exists p, returns (put_option_price_div 100 100 1 0.05 0.2 0.02) p /\
            6.28 < p < 6.30 /\
            6.32 < put_price_spec 100 100 1 0.05 0.2 0.02 < 6.34.
Proof.
  exists (put_div_value 100 100 1 0.05 0.2 0.02). split; [| split].
  - apply put_option_price_div_returns; float_arith.
  - apply example_code_value.
  - apply example_spec_value.
Qed.

(** *** C2: input validation *)

(** C2, counterexample.  sigma = 0 is an input the claim wants rejected with
    [InvalidInput]: the code raises nothing and returns nan.  T = 0 is the
    input the claim wants rejected with [DomainError]: the code raises
    nothing and returns K - S. *)
Lemma invalid_inputs_are_not_rejected :
  (invalid_input 100 100 1 0 /\
   put_option_price 100 100 1 0 0 = Ok XNaN /\
   put_option_price 100 100 1 0 0 <> Raise InvalidInput) /\
  (returns (put_option_price 100 110 0 0.05 0.2) (110 - 100) /\
   put_option_price 100 110 0 0.05 0.2 <> Raise DomainError).
Proof.
  split; [split; [| split] | split].
  - unfold invalid_input. right. right. right. lra.
  - apply put_option_price_sigma_zero.
  - rewrite put_option_price_sigma_zero. discriminate.
  - apply put_option_price_at_expiry; float_arith.
  - destruct (put_option_price_at_expiry 100 110 0.05 0.2
                ltac:(lra) ltac:(lra) ltac:(lra) ltac:(float_arith))
      as [a [Ha _]].
    rewrite Ha. discriminate.
Qed.

(** C2, as amended.  Neither pricing function validates its input: no input
    makes [put_option_price] or [put_option_price_div] fail with
    [InvalidInput] or [DomainError]. *)
Theorem pricing_functions_validate_nothing (S K T r sigma q : R) :
  no_structured_failure (put_option_price S K T r sigma) /\
  no_structured_failure (put_option_price_div S K T r sigma q).
Proof.
  unfold no_structured_failure. split.
  - destruct (put_option_price_outcome S K T r sigma) as [[v H] | [H | H]];
      rewrite H; split; discriminate.
  - destruct (put_option_price_div_outcome S K T r sigma q) as [[v H] | [H | H]];
      rewrite H; split; discriminate.
Qed.

(** *** C3: the dividend-discounted spot *)

(** C3 (code defect).  Pricing with the dividend yield should equal pricing
    without dividends on the discounted spot S e^(-qT).  At S = K = 100,
    T = 1, r = 0.05, sigma = 0.2, q = 0.02 the first is below 6.30 and the
    second above 6.32. *)
Theorem put_option_price_div_differs_from_discounted_spot :
  exists p p',
    returns (put_option_price_div 100 100 1 0.05 0.2 0.02) p /\
    returns (put_option_price (100 * exp (- (0.02) * 1)) 100 1 0.05 0.2) p' /\
    p < 6.30 /\ 6.32 < p'.
Proof.
  exists (put_div_value 100 100 1 0.05 0.2 0.02).
  exists (put_value (100 * exp (- (0.02) * 1)) 100 1 0.05 0.2).
  split; [| split; [| split]].
  - apply put_option_price_div_returns; float_arith.
  - apply put_option_price_returns; try float_arith.
    apply Rmult_lt_0_compat; [lra | apply exp_pos].
  - apply example_code_value.
  - rewrite put_value_discounted_spot_example, <- put_price_spec_example.
    apply example_spec_value.
Qed.

(** *** C4: the sign of the price *)

(** C4 (code defect).  A put premium is never negative, but at S = K = 100,
    T = 1, r = 0.05, sigma = 0.2 and the dividend yield q = -0.2 the function
    returns a price below -1. *)
Theorem put_option_price_div_negative_price :
  exists p, returns (put_option_price_div 100 100 1 0.05 0.2 (-0.2)) p /\ p < -1.
Proof.
  exists (put_div_value 100 100 1 0.05 0.2 (-0.2)). split.
  - apply put_option_price_div_returns; float_arith.
  - apply example_negative_value.
Qed.

(** *** C6: no dividends *)

(** C6.  On every valid input [put_option_price_div] with q = 0 has the
    outcome of [put_option_price]: the same float, or the same exception. *)
Theorem put_option_price_div_without_dividend (S K T r sigma : R) :
  0 < S -> 0 < K -> 0 < T -> 0 < sigma ->
  put_option_price_div S K T r sigma 0 = put_option_price S K T r sigma.
Proof.
  intros _ _ _ _. apply put_option_price_div_zero_yield.
Qed.

Lemma put_option_price_div_without_dividend_witness :
  put_option_price_div 100 100 1 0.05 0.2 0 = put_option_price 100 100 1 0.05 0.2.
Proof. apply (put_option_price_div_without_dividend 100 100 1 0.05 0.2); lra. Defined.

(** *** C9: the worked example *)

(** C9.  At S = 100, K = 100, T = 1, r = 0.05, sigma = 0.2 the price
    [put_option_price] returns is within 0.01 of 5.57. *)
Theorem put_option_price_worked_example :
  exists p, returns (put_option_price 100 100 1 0.05 0.2) p /\ Rabs (p - 5.57) <= 0.01.
Proof.
  exists (put_value 100 100 1 0.05 0.2). split.
  - apply put_option_price_returns; float_arith.
  - pose proof example_put_value as H. apply Rabs_le. lra.
Qed.

(** ** Part XVI.  Inputs that make the functions return nan

    The results of this part are nan, which no later rounding, overflow or
    underflow can change.  They are stated for arguments in the range of the
    doubles and a volatility whose square is, so that neither the conversion
    of an argument to a float nor [sigma ** 2] raises. *)

Lemma float_range_small (x : R) : Rabs x <= 1000 -> float_range x.
Proof. intros H. unfold float_range. pose proof max_float_large. lra. Qed.

Lemma min_float_small : min_float <= / 1000.
Proof.
  unfold min_float. apply Rinv_le_contravar; [lra |].
  assert (H : 1 <= 2 ^ 1064) by (apply pow_R1_Rle; lra).
  replace (2 ^ 1074) with (2 ^ 10 * 2 ^ 1064) by (rewrite <- pow_add; reflexivity).
  replace (2 ^ 10) with 1024 by (simpl; ring).
  nra.
Qed.

Ltac float_inputs_small :=
  unfold float_inputs; repeat split; apply float_range_small, Rabs_le; lra.

Lemma xdiv_nan_r (a : xfloat) : xdiv a XNaN = XNaN.
Proof. destruct a; reflexivity. Qed.

Lemma xdiv_nan_l (a : xfloat) : xdiv XNaN a = XNaN.
Proof. reflexivity. Qed.

Lemma xadd_nan_l (a : xfloat) : xadd XNaN a = XNaN.
Proof. reflexivity. Qed.

Lemma norm_cdf_nan (loc scale : R) : norm_cdf XNaN loc scale = XNaN.
Proof. unfold norm_cdf. destruct (Rlt_dec 0 scale); reflexivity. Qed.

Lemma xdiv_zero_by_zero (a : xfloat) : xval a = Some 0 -> xdiv a (XFin 0) = XNaN.
Proof.
  intros Ha. destruct (xval_finite a 0 Ha) as [-> | [-> _]]; unfold xdiv; simpl.
  - destruct (Req_dec_T 0 0) as [_ | H]; [reflexivity | contradiction].
  - destruct (Req_dec_T 0 0) as [_ | H]; [reflexivity | contradiction].
Qed.

Lemma negative_time_denominator (sigma T : R) :
  T < 0 -> xmul (XFin sigma) (np_sqrt (XFin T)) = XNaN.
Proof.
  intros HT. simpl np_sqrt. destruct (Rle_dec 0 T) as [H | _]; [exfalso; lra |].
  apply xmul_nan_r.
Qed.

(** The last line of the two functions when both quotients are nan. *)
Lemma price_of_nan (a b : xfloat) :
  xsub (xmul a (norm_cdf (xneg XNaN) 0.0 1.0)) (xmul b (norm_cdf (xneg XNaN) 0.0 1.0)) = XNaN.
Proof.
  change (xneg XNaN) with XNaN. rewrite norm_cdf_nan, !xmul_nan_r. reflexivity.
Qed.

(** *** Negative time to maturity *)

(** X1.  With T < 0 and K <> 0 both functions raise nothing and return nan:
    [np.sqrt(T)] is nan and it reaches both quotients. *)
Theorem negative_time_returns_nan (S K T r sigma q : R) :
  float_inputs S K T r sigma q -> sigma * sigma <= max_float ->
  K <> 0 -> T < 0 ->
  put_option_price S K T r sigma = Ok XNaN /\
  put_option_price_div S K T r sigma q = Ok XNaN.
Proof.
  intros _ Hrange HK HT. unfold put_option_price, put_option_price_div.
  rewrite !py_div_ok by exact HK. rewrite !py_sqr_finite by exact Hrange. cbn [bind].
  rewrite !negative_time_denominator by exact HT.
  rewrite !xdiv_nan_r, !price_of_nan. split; reflexivity.
Qed.

Lemma negative_time_returns_nan_witness :
  put_option_price 100 100 (-1) 0.05 0.2 = Ok XNaN /\
  put_option_price_div 100 100 (-1) 0.05 0.2 0.02 = Ok XNaN.
Proof.
  apply (negative_time_returns_nan 100 100 (-1) 0.05 0.2 0.02);
    [float_inputs_small | float_arith | lra | lra].
Defined.

(** *** Spot and strike of opposite signs *)

Lemma log_of_negative_quotient (S K : R) :
  S < 0 < K \/ K < 0 < S -> np_log (xdiv (XFin S) (XFin K)) = XNaN.
Proof.
  intros H.
  assert (HK : K <> 0) by (destruct H; lra).
  assert (Hq : S / K < 0).
  { destruct H as [[H1 H2] | [H1 H2]].
    - apply Rmult_lt_reg_r with K; [lra |].
      replace (S / K * K) with S by (field; lra). lra.
    - apply Rmult_lt_reg_r with (- K); [lra |].
      replace (S / K * - K) with (- S) by (field; lra). lra. }
  pose proof (xval_xdiv (XFin S) (XFin K) S K eq_refl eq_refl HK) as Hv.
  destruct (xval_finite _ _ Hv) as [-> | [_ H0]]; [| exfalso; lra].
  simpl. destruct (Rlt_dec 0 (S / K)) as [H1 | _]; [exfalso; lra |].
  destruct (Req_dec_T (S / K) 0) as [H1 | _]; [exfalso; lra | reflexivity].
Qed.

(** X2.  When the spot and the strike have opposite signs, and their
    quotient is not so small that it rounds to a zero, both functions raise
    nothing and return nan: [np.log] of a negative quotient is nan. *)
Theorem opposite_signs_return_nan (S K T r sigma q : R) :
  float_inputs S K T r sigma q -> sigma * sigma <= max_float ->
  S < 0 < K \/ K < 0 < S -> min_float <= Rabs (S / K) ->
  put_option_price S K T r sigma = Ok XNaN /\
  put_option_price_div S K T r sigma q = Ok XNaN.
Proof.
  intros _ Hrange H _. assert (HK : K <> 0) by (destruct H; lra).
  unfold put_option_price, put_option_price_div.
  rewrite !py_div_ok by exact HK. rewrite !py_sqr_finite by exact Hrange. cbn [bind].
  rewrite !log_of_negative_quotient by exact H.
  rewrite !xadd_nan_l, !xdiv_nan_l, !price_of_nan. split; reflexivity.
Qed.

Lemma opposite_signs_return_nan_witness :
  put_option_price (-5) 100 1 0.05 0.2 = Ok XNaN /\
  put_option_price_div (-5) 100 1 0.05 0.2 0.02 = Ok XNaN.
Proof.
  apply (opposite_signs_return_nan (-5) 100 1 0.05 0.2 0.02);
    [float_inputs_small | float_arith | lra |].
  pose proof min_float_small. rewrite Rabs_left by lra. lra.
Defined.

(** *** Zero time to maturity, at the money *)

Lemma d_code_zero_time_at (S sigma : R) (drift : xfloat) (m : R) :
  0 < S -> 0 < sigma -> xval drift = Some m ->
  xdiv (xadd (np_log (xdiv (XFin S) (XFin S))) (xmul drift (XFin 0)))
       (xmul (XFin sigma) (np_sqrt (XFin 0))) = XNaN.
Proof.
  intros HS Hs Hm. rewrite (zero_time_volatility sigma Hs).
  apply xdiv_zero_by_zero.
  transitivity (Some (ln (S / S) + m * 0)).
  - apply xval_xadd; [| apply xval_xmul; [exact Hm | reflexivity]].
    apply xval_np_log; [apply xval_xdiv; [reflexivity | reflexivity | lra] |].
    apply Rdiv_lt_0_compat; assumption.
  - f_equal. replace (S / S) with 1 by (field; lra). rewrite ln_1. ring.
Qed.

(** X3.  With T = 0, sigma > 0 and S = K > 0 both functions raise nothing
    and return nan: d1 and d2 are 0.0 / 0.0. *)
Theorem zero_time_at_the_money_returns_nan (S r sigma q : R) :
  float_inputs S S 0 r sigma q -> sigma * sigma <= max_float ->
  0 < S -> 0 < sigma ->
  put_option_price S S 0 r sigma = Ok XNaN /\
  put_option_price_div S S 0 r sigma q = Ok XNaN.
Proof.
  intros _ Hrange HS Hs. unfold put_option_price, put_option_price_div.
  rewrite !py_div_ok by lra. rewrite !py_sqr_finite by exact Hrange. cbn [bind].
  rewrite !(d_code_zero_time_at S sigma
              (xadd (XFin r) (xmul (XFin 0.5) (xmul (XFin sigma) (XFin sigma))))
              (r + 0.5 * sigma ^ 2) HS Hs) by (repeat xval_step).
  rewrite !(d_code_zero_time_at S sigma
              (xsub (XFin r) (xmul (XFin 0.5) (xmul (XFin sigma) (XFin sigma))))
              (r - 0.5 * sigma ^ 2) HS Hs) by (repeat xval_step).
  rewrite !price_of_nan. split; reflexivity.
Qed.

Lemma zero_time_at_the_money_returns_nan_witness :
  put_option_price 100 100 0 0.05 0.2 = Ok XNaN /\
  put_option_price_div 100 100 0 0.05 0.2 0.02 = Ok XNaN.
Proof.
  apply (zero_time_at_the_money_returns_nan 100 0.05 0.2 0.02);
    [float_inputs_small | float_arith | lra | lra].
Defined.

(** ** Part XVII.  A negative spot with a negative strike

    The quotient S / K, and with it d1 and d2, is the same for (-S, -K) as
    for (S, K), and every other operation commutes with the change of sign:
    the functions do not reject the negative pair, they return the negated
    price. *)

Section NegatedInputs.
Variables S K T r sigma : R.
Hypothesis HS : 0 < S.
Hypothesis HK : 0 < K.
Hypothesis HT : 0 < T.
Hypothesis Hsigma : 0 < sigma.
Hypothesis Hrange : sigma * sigma <= max_float.

Lemma py_div_negated :
  exists c, py_div (XFin (- S)) (XFin (- K)) = Ok c /\ xval c = Some (S / K).
Proof.
  destruct (py_div_finite (XFin (- S)) (XFin (- K)) (- S) (- K) eq_refl eq_refl ltac:(lra))
    as [c [Hc Hv]].
  exists c. split; [exact Hc |]. rewrite Hv. f_equal. field. lra.
Qed.

Lemma put_option_price_negated :
  returns (put_option_price (- S) (- K) T r sigma) (- put_value S K T r sigma).
Proof.
  unfold returns, put_option_price.
  destruct py_div_negated as [c [Hc Hv]].
  rewrite Hc, (py_sqr_finite sigma Hrange). cbn [bind]. eexists. split; [reflexivity |].
  transitivity (Some (- K * exp (- r * T) * ndtr (- d2_code S K T r sigma)
                      - - S * ndtr (- d1_code S K T r sigma)));
    [| f_equal; unfold put_value; ring].
  unfold d1_code, d2_code.
  repeat xval_step; apply (xval_d_code S K T sigma HS HK HT Hsigma); try exact Hv;
    repeat xval_step.
Qed.

Lemma put_option_price_div_negated (q : R) :
  returns (put_option_price_div (- S) (- K) T r sigma q) (- put_div_value S K T r sigma q).
Proof.
  unfold returns, put_option_price_div.
  destruct py_div_negated as [c [Hc Hv]].
  rewrite Hc, (py_sqr_finite sigma Hrange). cbn [bind]. eexists. split; [reflexivity |].
  transitivity (Some (- K * exp (- r * T) * ndtr (- d2_code S K T r sigma)
                      - - S * exp (- q * T) * ndtr (- d1_code S K T r sigma)));
    [| f_equal; unfold put_div_value; ring].
  unfold d1_code, d2_code.
  repeat xval_step; apply (xval_d_code S K T sigma HS HK HT Hsigma); try exact Hv;
    repeat xval_step.
Qed.
End NegatedInputs.

(** X4.  For float arguments with S, K, T, sigma > 0 and sigma ** 2 within
    the range of the doubles: when a function returns the price p on
    (S, K), it returns -p on (-S, -K). *)
Theorem negative_spot_and_strike_return_negated_price (S K T r sigma q p p' : R) :
  float_inputs S K T r sigma q -> sigma * sigma <= max_float ->
  0 < S -> 0 < K -> 0 < T -> 0 < sigma ->
  returns (put_option_price S K T r sigma) p ->
  returns (put_option_price_div S K T r sigma q) p' ->
  returns (put_option_price (- S) (- K) T r sigma) (- p) /\
  returns (put_option_price_div (- S) (- K) T r sigma q) (- p').
Proof.
  intros _ Hrange HS HK HT Hs Hp Hp'.
  rewrite (returns_unique _ _ _ Hp (put_option_price_returns S K T r sigma HS HK HT Hs Hrange)).
  rewrite (returns_unique _ _ _ Hp'
             (put_option_price_div_returns S K T r sigma HS HK HT Hs Hrange q)).
  split.
  - apply put_option_price_negated; assumption.
  - apply put_option_price_div_negated; assumption.
Qed.

Lemma negative_spot_and_strike_return_negated_price_witness :
  returns (put_option_price (- 100) (- 100) 1 0.05 0.2)
          (- put_value 100 100 1 0.05 0.2) /\
  returns (put_option_price_div (- 100) (- 100) 1 0.05 0.2 0.02)
          (- put_div_value 100 100 1 0.05 0.2 0.02).
Proof.
  apply (negative_spot_and_strike_return_negated_price 100 100 1 0.05 0.2 0.02);
    [float_inputs_small | float_arith | lra | lra | lra | lra | |].
  - apply put_option_price_returns; float_arith.
  - apply put_option_price_div_returns; float_arith.
Defined.
